(** * SEA decryption (src/openrct2/rct2/SeaDecrypt.cpp)

    A shallow embedding of the four routines of SeaDecrypt.cpp
    ([GetEncryptionKey], [CreateMask], [Decrypt], [DecryptSea]) and the
    properties of them that the specification states.

    C++ integers are embedded as [Z] with the wrap-around of their type
    written out; byte buffers are [list Z]; the file name is a [string]
    of 8-bit characters.  An access outside a buffer is undefined
    behaviour in C++ and is the [Undefined] outcome here. *)

From Stdlib Require Import ZArith Lia List String Ascii Bool.
From stdpp Require Import base numbers list.

Local Open Scope Z_scope.

(** ** Outcomes of a run *)

Inductive result (A : Type) : Type :=
| Ok (a : A)     (* the routine ran to its end *)
| Undefined      (* a read or write outside a buffer *)
| OutOfFuel.       (* the loop did not finish within the fuel it was given *)

Arguments Ok {A} a.
Arguments Undefined {A}.
Arguments OutOfFuel {A}.

Definition bind {A B : Type} (m : result A) (k : A -> result B) : result B :=
  match m with
  | Ok a => k a
  | Undefined => Undefined
  | OutOfFuel => OutOfFuel
  end.

Notation "x <- m ;; k" := (bind m (fun x => k))
  (at level 100, m at next level, right associativity).

(** ** Machine integers and buffers *)

(** constexpr int32_t MASK_SIZE = 0x1000; *)
Definition MASK_SIZE : Z := 0x1000.

(** Conversion to uint32_t. *)
Definition to_uint32 (v : Z) : Z := v mod 2 ^ 32.

(** Conversion to int32_t (two's complement). *)
Definition to_int32 (v : Z) : Z := (v + 2 ^ 31) mod 2 ^ 32 - 2 ^ 31.

(** Conversion to size_t; 64 bits wide on the LP64 and LLP64 targets. *)
Definition SIZE_BITS : Z := 64.
Definition to_size_t (v : Z) : Z := v mod 2 ^ SIZE_BITS.

(** [buf[i]] as an rvalue. *)
Definition read {A : Type} (buf : list A) (i : Z) : result A :=
  if (0 <=? i) && (i <? Z.of_nat (length buf)) then
    match buf !! Z.to_nat i with
    | Some x => Ok x
    | None => Undefined
    end
  else Undefined.

(** [buf[i] = v]. *)
Definition write {A : Type} (buf : list A) (i : Z) (v : A) : result (list A) :=
  if (0 <=? i) && (i <? Z.of_nat (length buf)) then Ok (<[Z.to_nat i := v]> buf)
  else Undefined.

(** Modelled from the spec: [rol32] is declared in common.h, which is not
    among the sources.  The glossary describes it as a circular shift of a
    32-bit word in which the bits shifted out of the high end re-enter at
    the low end. *)
Definition rol32 (x : Z) (shift : Z) : Z :=
  to_uint32 (Z.lor (Z.shiftl x shift) (Z.shiftr x (32 - shift))).

(** ** GetEncryptionKey *)

Record EncryptionKey : Type := { Seed0 : Z; Seed1 : Z }.

(** Whether plain [char] is a signed type is fixed by the target: it is
    signed on x86 (MSVC, gcc, clang) and unsigned on the ARM ABIs. *)
Inductive char_kind : Type := SignedChar | UnsignedChar.

(** The 8-bit code unit held by a character. *)
Definition char_code (ch : ascii) : Z := Z.of_N (N_of_ascii ch).

(** The value of the [char] once promoted to [int]. *)
Definition char_to_int (ck : char_kind) (ch : ascii) : Z :=
  match ck with
  | SignedChar => if 128 <=? char_code ch then char_code ch - 256 else char_code ch
  | UnsignedChar => char_code ch
  end.

(** The right operand of [^] in [(s + (s << 5)) ^ fileName[i]], after the
    usual arithmetic conversions have brought it to uint32_t. *)
Definition key_operand (ck : char_kind) (ch : ascii) : Z :=
  to_uint32 (char_to_int ck ch).

(** [(s + (s << 5)) ^ ch] on a uint32_t [s]. *)
Definition key_mix (ck : char_kind) (s : Z) (ch : ascii) : Z :=
  Z.lxor (to_uint32 (s + to_uint32 (Z.shiftl s 5))) (key_operand ck ch).

(** for (int i = n - 1; i >= 0; i--) s0 = (s0 + (s0 << 5)) ^ fileName[i]; *)
Fixpoint seed0_loop (ck : char_kind) (fileName : list ascii) (n : nat) (s0 : Z)
  : result Z :=
  match n with
  | O => Ok s0
  | S i =>
      ch <- read fileName (Z.of_nat i) ;;
      seed0_loop ck fileName i (key_mix ck s0 ch)
  end.

(** for (int i = ...; i < fileNameLen; i++) s1 = (s1 + (s1 << 5)) ^ fileName[i];
    [todo] counts the iterations that are left, [fileNameLen - i]. *)
Fixpoint seed1_loop (ck : char_kind) (fileName : list ascii) (todo : nat)
  (i : Z) (s1 : Z) : result Z :=
  match todo with
  | O => Ok s1
  | S k =>
      ch <- read fileName i ;;
      seed1_loop ck fileName k (i + 1) (key_mix ck s1 ch)
  end.

(** [fileNameLen - 1], the first value of [i] in the backward loop, is
    computed in [int]: below [INT32_MIN] it is a signed overflow, which is
    undefined. *)
Definition GetEncryptionKey (ck : char_kind) (fileName : string)
  : result EncryptionKey :=
  let name := list_ascii_of_string fileName in
  let fileNameLen := to_int32 (Z.of_nat (length name)) in
  if fileNameLen - 1 <? - 2 ^ 31 then Undefined
  else
    s0 <- seed0_loop ck name (Z.to_nat fileNameLen) 0 ;;
    s1 <- seed1_loop ck name (Z.to_nat fileNameLen) 0 0 ;;
    Ok {| Seed0 := s0; Seed1 := s1 |}.

(** ** CreateMask *)

(** The locals of [CreateMask]: the buffer behind [result], the offset of
    [dst8] into it, the two running seeds and the counter [i]. *)
Record mask_state : Type := MaskState {
  ms_dst : list Z;
  ms_dst8 : Z;
  ms_seed0 : Z;
  ms_seed1 : Z;
  ms_i : Z
}.

(** [std::make_unique<uint8_t[]>(MASK_SIZE)] value-initialises the array. *)
Definition mask_buffer : list Z := replicate (Z.to_nat MASK_SIZE) 0.

Definition CreateMask_init (key : EncryptionKey) : mask_state :=
  {| ms_dst := mask_buffer; ms_dst8 := 0;
     ms_seed0 := Seed0 key; ms_seed1 := Seed1 key; ms_i := MASK_SIZE |}.

(** The body of [while (i > 0)]. *)
Definition CreateMask_round (st : mask_state) : result mask_state :=
  let s0 := ms_seed0 st in
  let s1 := Z.lxor (ms_seed1 st) 0xF7654321 in
  let seed0 := to_uint32 (rol32 s1 25 + s0) in
  let seed1 := rol32 s0 29 in
  let i := ms_i st in
  let p := ms_dst8 st in
  buf <- write (ms_dst st) p (Z.land (Z.shiftr s0 3) 0xFF) ;;
  let p := p + 1 in
  if 2 <=? i then
    buf <- write buf p (Z.land (Z.shiftr s0 11) 0xFF) ;;
    let p := p + 1 in
    if 3 <=? i then
      buf <- write buf p (Z.land (Z.shiftr s0 19) 0xFF) ;;
      let p := p + 1 in
      if 4 <=? i then
        buf <- write buf p (Z.land (Z.shiftr seed1 24) 0xFF) ;;
        let p := p + 1 in
        Ok (MaskState buf p seed0 seed1 (i - 4))
      else Ok (MaskState buf p seed0 seed1 i)
    else Ok (MaskState buf p seed0 seed1 i)
  else Ok (MaskState buf p seed0 seed1 i).

(** [while (i > 0) { ... }], at most [fuel] rounds. *)
Fixpoint CreateMask_while (fuel : nat) (st : mask_state) : result mask_state :=
  if 0 <? ms_i st then
    match fuel with
    | O => OutOfFuel
    | S fuel' =>
        st' <- CreateMask_round st ;;
        CreateMask_while fuel' st'
    end
  else Ok st.

Definition CreateMask_fuel (fuel : nat) (key : EncryptionKey) : result (list Z) :=
  st <- CreateMask_while fuel (CreateMask_init key) ;;
  Ok (ms_dst st).

Definition CreateMask (key : EncryptionKey) : result (list Z) :=
  CreateMask_fuel (Z.to_nat MASK_SIZE) key.

(** The state at the top of the loop after [n] rounds. *)
Fixpoint CreateMask_rounds (n : nat) (st : mask_state) : result mask_state :=
  match n with
  | O => Ok st
  | S k =>
      st' <- CreateMask_round st ;;
      CreateMask_rounds k st'
  end.

(** ** Decrypt *)

(** The buffer [data] and the locals [b] and [c] of [Decrypt]. *)
Record decrypt_state : Type := DecryptState {
  ds_data : list Z;
  ds_b : Z;
  ds_c : Z
}.

(** The body of the [for] loop at index [i]. *)
Definition Decrypt_body (mask8 : list Z) (i : Z) (st : decrypt_state)
  : result decrypt_state :=
  let a := ds_b st mod MASK_SIZE in
  let c := ds_c st mod MASK_SIZE in
  let b := to_uint32 (a + 1) mod MASK_SIZE in
  d <- read (ds_data st) i ;;
  mb <- read mask8 b ;;
  mc <- read mask8 c ;;
  ma <- read mask8 a ;;
  data <- write (ds_data st) i (Z.land (Z.lxor (d - mb) mc + ma) 0xFF) ;;
  Ok (DecryptState data (to_uint32 (a + 7)) (to_uint32 (c + 3))).

(** for (size_t i = ...; i < data.size(); i++); [todo] counts the
    iterations that are left, [data.size() - i]. *)
Fixpoint Decrypt_for (mask8 : list Z) (todo : nat) (i : Z) (st : decrypt_state)
  : result decrypt_state :=
  match todo with
  | O => Ok st
  | S k =>
      st' <- Decrypt_body mask8 i st ;;
      Decrypt_for mask8 k (i + 1) st'
  end.

Definition Decrypt_init (data : list Z) : decrypt_state :=
  {| ds_data := data; ds_b := 0; ds_c := 0 |}.

(** The state after the iterations for the indices [0 .. n-1]. *)
Definition Decrypt_after (mask8 : list Z) (data : list Z) (n : nat)
  : result decrypt_state :=
  Decrypt_for mask8 n 0 (Decrypt_init data).

(** The loop of [Decrypt] over a given mask. *)
Definition Decrypt_with (mask8 : list Z) (data : list Z) : result (list Z) :=
  st <- Decrypt_after mask8 data (length data) ;;
  Ok (ds_data st).

Definition Decrypt (data : list Z) (key : EncryptionKey) : result (list Z) :=
  mask <- CreateMask key ;;
  Decrypt_with mask data.

(** ** DecryptSea *)

(** [std::memcpy(dst, buf + off, n)]: the [n] bytes read from [buf]. *)
Fixpoint memcpy_from (buf : list Z) (off : Z) (n : nat) : result (list Z) :=
  match n with
  | O => Ok []
  | S k =>
      x <- read buf off ;;
      rest <- memcpy_from buf (off + 1) k ;;
      Ok (x :: rest)
  end.

(** [data.resize(n)]: truncate, or extend with zero bytes. *)
Definition resize (data : list Z) (n : Z) : list Z :=
  take (Z.to_nat n) data ++ replicate (Z.to_nat n - length data)%nat 0.

(** [fileName] stands for [path.filename().u8string()] and [raw] for the
    bytes [File::ReadAllBytes] returned. *)
Definition DecryptSea (ck : char_kind) (fileName : string) (raw : list Z)
  : result (list Z) :=
  key <- GetEncryptionKey ck fileName ;;
  let inputSize := to_size_t (Z.of_nat (length raw) - 4) in
  checksum <- memcpy_from raw inputSize 4 ;;
  let data := resize raw inputSize in
  Decrypt data key.

(** ** Reference formulations taken from the specification *)

(** Key derivation as the specification words it: one left-to-right pass
    over a sequence of operands, [s = (s + (s << 5)) XOR x] modulo 2^32. *)
Definition spec_accumulate (xs : list Z) : Z :=
  fold_left (fun s x => Z.lxor (s + Z.shiftl s 5) x mod 2 ^ 32) xs 0.

(** The four bytes of one round, from the seeds at its start. *)
Definition round_bytes (seed0 seed1 : Z) : list Z :=
  let t0 := seed0 in
  [ Z.land (Z.shiftr t0 3) 0xFF;
    Z.land (Z.shiftr t0 11) 0xFF;
    Z.land (Z.shiftr t0 19) 0xFF;
    Z.land (Z.shiftr (rol32 t0 29) 24) 0xFF ].

Definition next_seed0 (seed0 seed1 : Z) : Z :=
  (rol32 (Z.lxor seed1 0xF7654321) 25 + seed0) mod 2 ^ 32.

Definition next_seed1 (seed0 seed1 : Z) : Z := rol32 seed0 29.

(** The bytes of [n] full rounds. *)
Fixpoint mask_stream (n : nat) (seed0 seed1 : Z) : list Z :=
  match n with
  | O => []
  | S k =>
      round_bytes seed0 seed1
        ++ mask_stream k (next_seed0 seed0 seed1) (next_seed1 seed0 seed1)
  end.

(** The running seeds after [n] full rounds. *)
Fixpoint seeds_after (n : nat) (seed0 seed1 : Z) : Z * Z :=
  match n with
  | O => (seed0, seed1)
  | S k => seeds_after k (next_seed0 seed0 seed1) (next_seed1 seed0 seed1)
  end.

(** The index triples [(a, b, c)] of the first [n] positions, computed by
    the recurrence alone. *)
Fixpoint index_sequence (n : nat) (b c : Z) : list (Z * Z * Z) :=
  match n with
  | O => []
  | S k =>
      let a := b mod 4096 in
      let c := c mod 4096 in
      let b := (a + 1) mod 4096 in
      (a, b, c) :: index_sequence k (a + 7) (c + 3)
  end.

(** The values left in [b] and [c] after [n] positions. *)
Fixpoint index_after (n : nat) (b c : Z) : Z * Z :=
  match n with
  | O => (b, c)
  | S k => index_after k (b mod 4096 + 7) (c mod 4096 + 3)
  end.

(** The per-byte transform at one index triple. *)
Definition transform_byte (mask8 : list Z) (abc : Z * Z * Z) (x : Z) : Z :=
  let '(a, b, c) := abc in
  (Z.lxor (x - mask8 !!! Z.to_nat b) (mask8 !!! Z.to_nat c)
     + mask8 !!! Z.to_nat a) mod 256.

(** Decoding in two passes: the indices first, then the transform. *)
Definition Decrypt_precomputed (mask8 : list Z) (data : list Z) : list Z :=
  zip_with (fun abc x => transform_byte mask8 abc x)
    (index_sequence (length data) 0 0) data.

(** ** platform_get_locale_date_format (src/openrct2/platform/Windows.cpp) *)

(** The four values the function returns; the enumerators are declared
    in localisation/Date.h. *)
Inductive date_format : Type :=
| DATE_FORMAT_DAY_MONTH_YEAR
| DATE_FORMAT_MONTH_DAY_YEAR
| DATE_FORMAT_YEAR_MONTH_DAY
| DATE_FORMAT_YEAR_DAY_MONTH.

(** Wide characters are their code units; [L'd'], [L'y'] and [L'M']. *)
Definition wchar_d : Z := 100.
Definition wchar_y : Z := 121.
Definition wchar_M : Z := 77.

(** A narrow string literal as a wide string. *)
Definition wide (text : string) : list Z :=
  map char_code (list_ascii_of_string text).

(** [GetLocaleInfoEx(LOCALE_NAME_USER_DEFAULT, LOCALE_SSHORTDATE, buf, cchData)]:
    [pattern] is the short date pattern of the user's locale, [None] when
    the system cannot give it.  The call returns 0 (here [None]) when it
    fails, also when the pattern and its terminator do not fit [cchData]
    characters; otherwise the buffer holds the pattern. *)
Definition GetLocaleInfoEx (pattern : option (list Z)) (cchData : Z)
  : option (list Z) :=
  match pattern with
  | Some text =>
      if Z.of_nat (length text) + 1 <=? cchData then Some text else None
  | None => None
  end.

(** Membership in the scanset [[dyM]]. *)
Definition is_dyM (c : Z) : bool :=
  (c =? wchar_d) || (c =? wchar_y) || (c =? wchar_M).

(** The longest run of characters of a scanset at the head of the input,
    and the input behind it. *)
Fixpoint scan_run (in_set : Z -> bool) (input : list Z) : list Z * list Z :=
  match input with
  | [] => ([], [])
  | c :: rest =>
      if in_set c
      then let '(run, behind) := scan_run in_set rest in (c :: run, behind)
      else ([], input)
  end.

(** [swscanf_s(dateFormat, L"%l[dyM]%*l[^dyM]%l[dyM]%*l[^dyM]%*l[dyM]",
    first, ..., second, ...)]: the number of fields assigned (EOF, -1,
    when the input ends before the first), with [first] and [second].
    A scanset directive matches a run of one character or more; the
    directives after the third assign nothing. *)
Definition swscanf_s_date (dateFormat : list Z) : Z * list Z * list Z :=
  match scan_run is_dyM dateFormat with
  | ([], _) => ((match dateFormat with [] => -1 | _ => 0 end), [], [])
  | (first, behind1) =>
      match scan_run (fun c => negb (is_dyM c)) behind1 with
      | ([], _) => (1, first, [])
      | (_, behind2) =>
          match scan_run is_dyM behind2 with
          | ([], _) => (1, first, [])
          | (second, _) => (2, first, second)
          end
      end
  end.

(** [wcsncmp(lit, buf, 1) == 0] for a one-character literal: the first
    character of [buf] is that character. *)
Definition wcsncmp1_eq (c : Z) (buf : list Z) : bool :=
  match buf with
  | x :: _ => x =? c
  | [] => false
  end.

(** The function as compiled for Windows Vista and later
    ([_WIN32_WINNT >= 0x0600]); [dateFormat] is a buffer of 20 wide
    characters. *)
Definition platform_get_locale_date_format (pattern : option (list Z))
  : date_format :=
  match GetLocaleInfoEx pattern 20 with
  | None => DATE_FORMAT_DAY_MONTH_YEAR
  | Some dateFormat =>
      let '(assigned, first, second) := swscanf_s_date dateFormat in
      if negb (assigned =? 2) then DATE_FORMAT_DAY_MONTH_YEAR
      else if wcsncmp1_eq wchar_d first then DATE_FORMAT_DAY_MONTH_YEAR
      else if wcsncmp1_eq wchar_M first then DATE_FORMAT_MONTH_DAY_YEAR
      else if wcsncmp1_eq wchar_y first then
        (if wcsncmp1_eq wchar_d second
         then DATE_FORMAT_YEAR_DAY_MONTH
         else DATE_FORMAT_YEAR_MONTH_DAY)
      else DATE_FORMAT_DAY_MONTH_YEAR
  end.

(** ** Vocabulary for further properties *)

(** A value that fits a [uint8_t]. *)
Definition is_byte (x : Z) : Prop := 0 <= x < 256.

(** The index triple [(a, b, c)] of position [i], in closed form. *)
Definition index_triple (i : nat) : Z * Z * Z :=
  ((7 * Z.of_nat i) mod 4096,
   ((7 * Z.of_nat i) mod 4096 + 1) mod 4096,
   (3 * Z.of_nat i) mod 4096).

(** A file name read backwards. *)
Definition reverse_name (fileName : string) : string :=
  string_of_list_ascii (rev (list_ascii_of_string fileName)).

(** A character below 0x80. *)
Definition seven_bit (ch : ascii) : Prop := char_code ch < 128.

(** The operand of a signed [char], written out: a code unit of 0x80 or
    more sign-extended to 32 bits. *)
Definition signed_operand (ch : ascii) : Z :=
  if 128 <=? char_code ch then 0xFFFFFF00 + char_code ch else char_code ch.

(** A buffer longer than the mask, every byte 0x55. *)
Definition sample_long_data : list Z := replicate 5000 0x55.

(** A file of five payload bytes and a checksum. *)
Definition sample_payload : list Z := [0x10; 0x20; 0x30; 0x40; 0x50].
Definition sample_checksum : list Z := [0xDE; 0xAD; 0xBE; 0xEF].

(** ** Sample inputs *)

(** A state in the middle of a buffer of six bytes, eight bytes to go. *)
Definition sample_round_state : mask_state :=
  MaskState [9; 9; 9; 9; 9; 9] 1 0x12345678 0x9ABCDEF0 8.

(** A state with three bytes to go. *)
Definition sample_partial_state : mask_state :=
  MaskState [9; 9; 9; 9; 9; 9] 1 0x12345678 0x9ABCDEF0 3.

(** The mask of the file name "x", whose key is [{0x78, 0x78}]. *)
Definition sample_mask : list Z := mask_stream 1024 0x78 0x78.

(** The file name "e-acute .SEA" as its UTF-8 bytes C3 A9 2E 53 45 41. *)
Definition accented_name : string :=
  String (ascii_of_nat 0xC3) (String (ascii_of_nat 0xA9) ".SEA").

(** The byte 0x80 as a character. *)
Definition high_char : ascii := ascii_of_nat 128.

(** * Properties *)

(** ** Buffers and machine integers *)

Lemma read_lookup {A : Type} (buf : list A) (n : nat) (x : A) :
  buf !! n = Some x -> read buf (Z.of_nat n) = Ok x.
Proof.
  intros Hx. unfold read.
  pose proof (lookup_lt_Some _ _ _ Hx) as Hlt.
  replace (0 <=? Z.of_nat n) with true by (symmetry; apply Z.leb_le; lia).
  replace (Z.of_nat n <? Z.of_nat (length buf)) with true
    by (symmetry; apply Z.ltb_lt; lia).
  cbn [andb]. rewrite Nat2Z.id, Hx. reflexivity.
Qed.

Lemma read_outside {A : Type} (buf : list A) (i : Z) :
  Z.of_nat (length buf) <= i -> read buf i = Undefined.
Proof.
  intros Hi. unfold read.
  replace (i <? Z.of_nat (length buf)) with false
    by (symmetry; apply Z.ltb_ge; lia).
  rewrite andb_false_r. reflexivity.
Qed.

Lemma write_inside {A : Type} (buf : list A) (n : nat) (v : A) :
  (n < length buf)%nat -> write buf (Z.of_nat n) v = Ok (<[n := v]> buf).
Proof.
  intros Hlt. unfold write.
  replace (0 <=? Z.of_nat n) with true by (symmetry; apply Z.leb_le; lia).
  replace (Z.of_nat n <? Z.of_nat (length buf)) with true
    by (symmetry; apply Z.ltb_lt; lia).
  cbn [andb]. rewrite Nat2Z.id. reflexivity.
Qed.

Lemma write_middle {A : Type} (pre suf : list A) (y v : A) :
  write (pre ++ y :: suf) (Z.of_nat (length pre)) v = Ok (pre ++ v :: suf).
Proof.
  rewrite write_inside by (rewrite length_app; cbn; lia).
  f_equal. rewrite insert_app_r_alt by lia.
  rewrite Nat.sub_diag. reflexivity.
Qed.

Lemma to_uint32_small (v : Z) : 0 <= v < 2 ^ 32 -> to_uint32 v = v.
Proof. intros Hv. unfold to_uint32. apply Z.mod_small. exact Hv. Qed.

Lemma to_uint32_range (v : Z) : 0 <= to_uint32 v < 2 ^ 32.
Proof. unfold to_uint32. apply Z.mod_pos_bound. lia. Qed.

Lemma to_int32_small (v : Z) : - 2 ^ 31 <= v < 2 ^ 31 -> to_int32 v = v.
Proof. intros Hv. unfold to_int32. rewrite Z.mod_small; lia. Qed.

Lemma lxor_mod_pow2 (a b n : Z) :
  0 <= n -> Z.lxor (a mod 2 ^ n) (b mod 2 ^ n) = Z.lxor a b mod 2 ^ n.
Proof.
  intros Hn. rewrite <- !Z.land_ones by exact Hn.
  apply Z.bits_inj. intros k.
  rewrite Z.lxor_spec, !Z.land_spec, Z.lxor_spec.
  destruct (Z.testbit a k), (Z.testbit b k), (Z.testbit (Z.ones n) k);
    reflexivity.
Qed.

(** ** GetEncryptionKey *)

Lemma char_code_range (ch : ascii) : 0 <= char_code ch < 256.
Proof.
  unfold char_code. pose proof (N_ascii_bounded ch) as Hb. lia.
Qed.

Lemma key_operand_range (ck : char_kind) (ch : ascii) :
  0 <= key_operand ck ch < 2 ^ 32.
Proof. apply to_uint32_range. Qed.

(** The operand of an unsigned [char] is its code unit. *)
Lemma key_operand_unsigned (ch : ascii) :
  key_operand UnsignedChar ch = char_code ch.
Proof.
  unfold key_operand, char_to_int. apply to_uint32_small.
  pose proof (char_code_range ch). lia.
Qed.

(** So is the operand of any 7-bit character. *)
Lemma key_operand_seven_bit (ck : char_kind) (ch : ascii) :
  char_code ch < 128 -> key_operand ck ch = char_code ch.
Proof.
  intros H7. pose proof (char_code_range ch) as Hr.
  unfold key_operand, char_to_int. destruct ck.
  - replace (128 <=? char_code ch) with false
      by (symmetry; apply Z.leb_gt; lia).
    apply to_uint32_small. lia.
  - apply to_uint32_small. lia.
Qed.

Lemma key_mix_spec (ck : char_kind) (s : Z) (ch : ascii) :
  key_mix ck s ch = Z.lxor (s + Z.shiftl s 5) (key_operand ck ch) mod 2 ^ 32.
Proof.
  unfold key_mix.
  replace (to_uint32 (s + to_uint32 (Z.shiftl s 5)))
    with ((s + Z.shiftl s 5) mod 2 ^ 32)
    by (unfold to_uint32; now rewrite Zplus_mod_idemp_r).
  rewrite <- lxor_mod_pow2 by lia. f_equal.
  symmetry. apply Z.mod_small, key_operand_range.
Qed.

Lemma fold_key_mix (ck : char_kind) (name : list ascii) (s : Z) :
  fold_left (key_mix ck) name s
  = fold_left (fun s x => Z.lxor (s + Z.shiftl s 5) x mod 2 ^ 32)
      (map (key_operand ck) name) s.
Proof.
  revert s. induction name as [|ch name IH]; intros s; cbn; [reflexivity|].
  rewrite IH, key_mix_spec. reflexivity.
Qed.

Lemma seed0_loop_fold (ck : char_kind) (name : list ascii) (n : nat) (s0 : Z) :
  (n <= length name)%nat ->
  seed0_loop ck name n s0 = Ok (fold_left (key_mix ck) (rev (take n name)) s0).
Proof.
  revert s0. induction n as [|i IH]; intros s0 Hn; [reflexivity|].
  destruct (lookup_lt_is_Some_2 name i ltac:(lia)) as [ch Hch].
  cbn [seed0_loop]. rewrite (read_lookup _ _ _ Hch). cbn [bind].
  rewrite IH by lia.
  rewrite (take_S_r _ _ _ Hch), rev_unit. reflexivity.
Qed.

Lemma seed1_loop_fold (ck : char_kind) (name : list ascii) (todo j : nat) (s1 : Z) :
  (j + todo <= length name)%nat ->
  seed1_loop ck name todo (Z.of_nat j) s1
  = Ok (fold_left (key_mix ck) (take todo (drop j name)) s1).
Proof.
  revert j s1. induction todo as [|k IH]; intros j s1 Hn; [reflexivity|].
  destruct (lookup_lt_is_Some_2 name j ltac:(lia)) as [ch Hch].
  cbn [seed1_loop]. rewrite (read_lookup _ _ _ Hch). cbn [bind].
  replace (Z.of_nat j + 1) with (Z.of_nat (S j)) by lia.
  rewrite IH by lia.
  rewrite (drop_S _ _ _ Hch). reflexivity.
Qed.

Lemma length_list_ascii_of_string (s : string) :
  length (list_ascii_of_string s) = String.length s.
Proof. induction s as [|ch s IH]; cbn; [reflexivity | now rewrite IH]. Qed.

Lemma GetEncryptionKey_folds (ck : char_kind) (fileName : string) :
  Z.of_nat (String.length fileName) < 2 ^ 31 ->
  GetEncryptionKey ck fileName
  = Ok {| Seed0 := fold_left (key_mix ck) (rev (list_ascii_of_string fileName)) 0;
          Seed1 := fold_left (key_mix ck) (list_ascii_of_string fileName) 0 |}.
Proof.
  intros Hlen. unfold GetEncryptionKey.
  rewrite <- length_list_ascii_of_string in Hlen.
  set (name := list_ascii_of_string fileName) in *.
  rewrite to_int32_small by lia.
  replace (Z.of_nat (length name) - 1 <? - 2 ^ 31) with false
    by (symmetry; apply Z.ltb_ge; lia).
  rewrite Nat2Z.id.
  rewrite seed0_loop_fold by lia. cbn [bind].
  rewrite (seed1_loop_fold ck name (length name) 0) by lia. cbn [bind].
  rewrite drop_0, !take_ge by lia. reflexivity.
Qed.

(** The key in terms of the operands: for a file name shorter than 2^31
    characters seed0 accumulates the operands of the characters from last
    to first and seed1 from first to last, each by
    [s = (s + (s << 5)) XOR x] modulo 2^32 from [s = 0]; the name "x"
    gives [{0x78, 0x78}] and the empty name [{0, 0}]. *)
Lemma GetEncryptionKey_accumulates (ck : char_kind) (fileName : string) :
  Z.of_nat (String.length fileName) < 2 ^ 31 ->
  GetEncryptionKey ck fileName
  = Ok {| Seed0 := spec_accumulate
                     (rev (map (key_operand ck) (list_ascii_of_string fileName)));
          Seed1 := spec_accumulate
                     (map (key_operand ck) (list_ascii_of_string fileName)) |}
  /\ GetEncryptionKey ck "x" = Ok {| Seed0 := 0x78; Seed1 := 0x78 |}
  /\ GetEncryptionKey ck EmptyString = Ok {| Seed0 := 0; Seed1 := 0 |}.
Proof.
  intros Hlen. split; [|split; destruct ck; reflexivity].
  rewrite GetEncryptionKey_folds by exact Hlen.
  unfold spec_accumulate. rewrite !fold_key_mix, map_rev. reflexivity.
Qed.

(** Where [char] is signed, the byte 0x80 enters the accumulator as
    0xFFFFFF80, not as 0x80. *)
Lemma key_operand_high_byte_sign_extended :
  char_code high_char = 0x80
  /\ key_operand SignedChar high_char = 0xFFFFFF80
  /\ key_operand SignedChar high_char <> char_code high_char
  /\ GetEncryptionKey SignedChar (String high_char EmptyString)
     = Ok {| Seed0 := 0xFFFFFF80; Seed1 := 0xFFFFFF80 |}.
Proof. repeat split; vm_compute; congruence. Qed.

(** The operand of a character is the [char] converted to 32 bits: the
    zero-extended code unit where [char] is unsigned and for every code
    unit below 0x80; where [char] is signed a code unit of 0x80 or more
    is sign-extended, [0xFFFFFF00 + code].  The key of a one-character
    name is that value in both seeds. *)
Lemma key_operand_extension (ck : char_kind) (ch : ascii) :
  key_operand ck ch
  = match ck with
    | SignedChar =>
        if 128 <=? char_code ch then 0xFFFFFF00 + char_code ch else char_code ch
    | UnsignedChar => char_code ch
    end
  /\ GetEncryptionKey ck (String ch EmptyString)
     = Ok {| Seed0 := key_operand ck ch; Seed1 := key_operand ck ch |}.
Proof.
  pose proof (char_code_range ch) as Hr. split.
  - destruct ck; [|apply key_operand_unsigned].
    destruct (128 <=? char_code ch) eqn:Hhigh.
    + apply Z.leb_le in Hhigh. unfold key_operand, char_to_int, to_uint32.
      replace (128 <=? char_code ch) with true by (symmetry; apply Z.leb_le; lia).
      replace (char_code ch - 256) with (0xFFFFFF00 + char_code ch + (-1) * 2 ^ 32)
        by lia.
      rewrite Z.mod_add by lia. apply Z.mod_small. lia.
    + apply Z.leb_gt in Hhigh. apply key_operand_seven_bit. lia.
  - rewrite GetEncryptionKey_folds by (cbn; lia).
    cbn [list_ascii_of_string rev app fold_left].
    rewrite key_mix_spec. cbn [Z.shiftl Z.add Z.lxor].
    rewrite Z.mod_small by apply key_operand_range. reflexivity.
Qed.

(** C3, at a failing input: the file name with the UTF-8 bytes
    C3 A9 2E 53 45 41.  Accumulating [s = (s + (s << 5)) XOR byte] modulo
    2^32 over these bytes, last to first and first to last, gives
    [{2474484083, 3459471571}]; that is the key where [char] is unsigned.
    Where [char] is signed the code derives [{2474481011, 2289714899}]. *)
Theorem GetEncryptionKey_accented_name_key :
  map char_code (list_ascii_of_string accented_name)
  = [0xC3; 0xA9; 0x2E; 0x53; 0x45; 0x41]
  /\ spec_accumulate (rev [0xC3; 0xA9; 0x2E; 0x53; 0x45; 0x41]) = 2474484083
  /\ spec_accumulate [0xC3; 0xA9; 0x2E; 0x53; 0x45; 0x41] = 3459471571
  /\ GetEncryptionKey UnsignedChar accented_name
     = Ok {| Seed0 := 2474484083; Seed1 := 3459471571 |}
  /\ GetEncryptionKey SignedChar accented_name
     = Ok {| Seed0 := 2474481011; Seed1 := 2289714899 |}
  /\ GetEncryptionKey SignedChar accented_name
     <> Ok {| Seed0 := spec_accumulate (rev [0xC3; 0xA9; 0x2E; 0x53; 0x45; 0x41]);
              Seed1 := spec_accumulate [0xC3; 0xA9; 0x2E; 0x53; 0x45; 0x41] |}.
Proof. repeat split; vm_compute; congruence. Qed.

(** C6, what the code does where [char] is signed: for every file name
    shorter than 2^31 characters, the value XORed into the accumulator
    for a byte of 0x80 or more is the sign-extended [0xFFFFFF00 + byte],
    and the zero-extended byte only below 0x80; both seeds accumulate
    these values. *)
Theorem GetEncryptionKey_signed_char_operands (fileName : string) :
  Z.of_nat (String.length fileName) < 2 ^ 31 ->
  GetEncryptionKey SignedChar fileName
  = Ok {| Seed0 := spec_accumulate
                     (rev (map signed_operand (list_ascii_of_string fileName)));
          Seed1 := spec_accumulate
                     (map signed_operand (list_ascii_of_string fileName)) |}.
Proof.
  intros Hlen.
  rewrite (proj1 (GetEncryptionKey_accumulates SignedChar fileName Hlen)).
  assert (Hops : map (key_operand SignedChar) (list_ascii_of_string fileName)
                 = map signed_operand (list_ascii_of_string fileName)).
  { apply map_ext. intros ch.
    exact (proj1 (key_operand_extension SignedChar ch)). }
  rewrite Hops. reflexivity.
Qed.

Lemma GetEncryptionKey_signed_char_operands_witness :
  Z.of_nat (String.length accented_name) < 2 ^ 31
  /\ map signed_operand (list_ascii_of_string accented_name)
     = [0xFFFFFFC3; 0xFFFFFFA9; 0x2E; 0x53; 0x45; 0x41]
  /\ GetEncryptionKey SignedChar accented_name
     = Ok {| Seed0 := spec_accumulate
                        (rev [0xFFFFFFC3; 0xFFFFFFA9; 0x2E; 0x53; 0x45; 0x41]);
             Seed1 := spec_accumulate
                        [0xFFFFFFC3; 0xFFFFFFA9; 0x2E; 0x53; 0x45; 0x41] |}.
Proof.
  assert (Hlen : Z.of_nat (String.length accented_name) < 2 ^ 31)
    by (vm_compute; reflexivity).
  split; [exact Hlen|]. split; [vm_compute; reflexivity|].
  exact (GetEncryptionKey_signed_char_operands accented_name Hlen).
Defined.

(** ** CreateMask *)

Lemma write_at (pre mid : list Z) (y : Z) (suf : list Z) (v pos : Z) :
  pos = Z.of_nat (length pre + length mid) ->
  write (pre ++ mid ++ y :: suf) pos v = Ok (pre ++ mid ++ v :: suf).
Proof.
  intros ->. rewrite !app_assoc, <- length_app. apply write_middle.
Qed.

Lemma write_at0 (pre : list Z) (y : Z) (suf : list Z) (v pos : Z) :
  pos = Z.of_nat (length pre) ->
  write (pre ++ y :: suf) pos v = Ok (pre ++ v :: suf).
Proof. intros ->. apply write_middle. Qed.

Lemma write_at1 (pre : list Z) (a y : Z) (suf : list Z) (v pos : Z) :
  pos = Z.of_nat (length pre) + 1 ->
  write (pre ++ a :: y :: suf) pos v = Ok (pre ++ a :: v :: suf).
Proof. intros ->. apply (write_at pre [a]). cbn. lia. Qed.

Lemma write_at2 (pre : list Z) (a b y : Z) (suf : list Z) (v pos : Z) :
  pos = Z.of_nat (length pre) + 1 + 1 ->
  write (pre ++ a :: b :: y :: suf) pos v = Ok (pre ++ a :: b :: v :: suf).
Proof. intros ->. apply (write_at pre [a; b]). cbn. lia. Qed.

Lemma write_at3 (pre : list Z) (a b c y : Z) (suf : list Z) (v pos : Z) :
  pos = Z.of_nat (length pre) + 1 + 1 + 1 ->
  write (pre ++ a :: b :: c :: y :: suf) pos v
  = Ok (pre ++ a :: b :: c :: v :: suf).
Proof. intros ->. apply (write_at pre [a; b; c]). cbn. lia. Qed.

(** One round on a buffer split at [dst8]: the round overwrites the first
    [min i 4] bytes behind [dst8] with the leading bytes of the round. *)
Lemma CreateMask_round_eq (pre suf : list Z) (s0 s1 i : Z) :
  0 < i ->
  (Z.to_nat (Z.min i 4) <= length suf)%nat ->
  CreateMask_round (MaskState (pre ++ suf) (Z.of_nat (length pre)) s0 s1 i)
  = Ok (MaskState
          (pre ++ take (Z.to_nat (Z.min i 4)) (round_bytes s0 s1)
               ++ drop (Z.to_nat (Z.min i 4)) suf)
          (Z.of_nat (length pre) + Z.min i 4)
          (next_seed0 s0 s1) (next_seed1 s0 s1)
          (if 4 <=? i then i - 4 else i)).
Proof.
  intros Hi Hsuf. unfold CreateMask_round.
  cbn [ms_dst ms_dst8 ms_seed0 ms_seed1 ms_i].
  destruct suf as [|y1 suf]; [cbn in Hsuf; lia|].
  rewrite write_at0 by reflexivity. cbn [bind].
  destruct (2 <=? i) eqn:H2.
  2: { apply Z.leb_gt in H2. assert (i = 1) as -> by lia.
       do 2 f_equal; try reflexivity; cbn; lia. }
  apply Z.leb_le in H2.
  destruct suf as [|y2 suf]; [cbn in Hsuf; lia|].
  rewrite write_at1 by reflexivity. cbn [bind].
  destruct (3 <=? i) eqn:H3.
  2: { apply Z.leb_gt in H3. assert (i = 2) as -> by lia.
       do 2 f_equal; try reflexivity; cbn; lia. }
  apply Z.leb_le in H3.
  destruct suf as [|y3 suf]; [cbn in Hsuf; lia|].
  rewrite write_at2 by reflexivity. cbn [bind].
  destruct (4 <=? i) eqn:H4.
  2: { apply Z.leb_gt in H4. assert (i = 3) as -> by lia.
       do 2 f_equal; try reflexivity; cbn; lia. }
  apply Z.leb_le in H4.
  destruct suf as [|y4 suf]; [cbn in Hsuf; lia|].
  rewrite write_at3 by reflexivity. cbn [bind].
  rewrite Z.min_r by lia.
  change (Z.to_nat 4) with 4%nat.
  replace (Z.of_nat (length pre) + 1 + 1 + 1 + 1)
    with (Z.of_nat (length pre) + 4) by lia.
  reflexivity.
Qed.

(** A round with four bytes or more to go. *)
Lemma CreateMask_round_full (pre suf : list Z) (s0 s1 i : Z) :
  4 <= i ->
  (4 <= length suf)%nat ->
  CreateMask_round (MaskState (pre ++ suf) (Z.of_nat (length pre)) s0 s1 i)
  = Ok (MaskState
          ((pre ++ round_bytes s0 s1) ++ drop 4 suf)
          (Z.of_nat (length (pre ++ round_bytes s0 s1)))
          (next_seed0 s0 s1) (next_seed1 s0 s1) (i - 4)).
Proof.
  intros Hi Hsuf.
  rewrite CreateMask_round_eq by (rewrite ?Z.min_r by lia; lia).
  rewrite Z.min_r by lia.
  replace (4 <=? i) with true by (symmetry; apply Z.leb_le; lia).
  change (Z.to_nat 4) with 4%nat.
  rewrite length_app, app_assoc. cbn [round_bytes length take].
  do 2 f_equal. lia.
Qed.

Lemma length_round_bytes (s0 s1 : Z) : length (round_bytes s0 s1) = 4%nat.
Proof. reflexivity. Qed.

Lemma length_mask_stream (n : nat) (s0 s1 : Z) :
  length (mask_stream n s0 s1) = (4 * n)%nat.
Proof.
  revert s0 s1. induction n as [|n IH]; intros s0 s1; [reflexivity|].
  cbn [mask_stream]. rewrite length_app, IH, length_round_bytes. lia.
Qed.

(** [n] rounds while at least [4 * n] bytes are still to go. *)
Lemma CreateMask_rounds_full (n : nat) (pre suf : list Z) (s0 s1 i : Z) :
  4 * Z.of_nat n <= i ->
  (4 * n <= length suf)%nat ->
  CreateMask_rounds n (MaskState (pre ++ suf) (Z.of_nat (length pre)) s0 s1 i)
  = Ok (MaskState
          (pre ++ mask_stream n s0 s1 ++ drop (4 * n) suf)
          (Z.of_nat (length pre) + 4 * Z.of_nat n)
          (fst (seeds_after n s0 s1)) (snd (seeds_after n s0 s1))
          (i - 4 * Z.of_nat n)).
Proof.
  revert pre suf s0 s1 i.
  induction n as [|n IH]; intros pre suf s0 s1 i Hi Hsuf.
  - cbn [CreateMask_rounds mask_stream seeds_after fst snd app].
    rewrite drop_0. do 2 f_equal; lia.
  - cbn [CreateMask_rounds].
    rewrite CreateMask_round_full by lia. cbn [bind].
    rewrite IH by (rewrite ?length_drop; lia).
    cbn [mask_stream seeds_after].
    rewrite drop_drop, length_app, length_round_bytes, <- !app_assoc.
    replace (4 + 4 * n)%nat with (4 * S n)%nat by lia.
    do 2 f_equal; lia.
Qed.

(** With enough fuel the loop is exactly [i / 4] rounds when [i] is a
    multiple of four. *)
Lemma CreateMask_while_rounds (n fuel : nat) (pre suf : list Z) (s0 s1 : Z) :
  (n <= fuel)%nat ->
  (4 * n <= length suf)%nat ->
  CreateMask_while fuel
    (MaskState (pre ++ suf) (Z.of_nat (length pre)) s0 s1 (4 * Z.of_nat n))
  = CreateMask_rounds n
      (MaskState (pre ++ suf) (Z.of_nat (length pre)) s0 s1 (4 * Z.of_nat n)).
Proof.
  revert fuel pre suf s0 s1.
  induction n as [|n IH]; intros fuel pre suf s0 s1 Hfuel Hsuf.
  - destruct fuel; reflexivity.
  - destruct fuel as [|fuel]; [lia|].
    cbn [CreateMask_while CreateMask_rounds ms_i].
    replace (0 <? 4 * Z.of_nat (S n)) with true
      by (symmetry; apply Z.ltb_lt; lia).
    rewrite CreateMask_round_full by lia. cbn [bind].
    replace (4 * Z.of_nat (S n) - 4) with (4 * Z.of_nat n) by lia.
    apply IH; rewrite ?length_drop; lia.
Qed.

(** The whole loop from any buffer of [4 * n] bytes. *)
Lemma CreateMask_while_all (n fuel : nat) (buf : list Z) (s0 s1 : Z) :
  (n <= fuel)%nat ->
  length buf = (4 * n)%nat ->
  CreateMask_while fuel (MaskState buf 0 s0 s1 (4 * Z.of_nat n))
  = Ok (MaskState (mask_stream n s0 s1) (4 * Z.of_nat n)
          (fst (seeds_after n s0 s1)) (snd (seeds_after n s0 s1)) 0).
Proof.
  intros Hfuel Hbuf.
  pose proof (CreateMask_while_rounds n fuel [] buf s0 s1 Hfuel) as Hw.
  pose proof (CreateMask_rounds_full n [] buf s0 s1 (4 * Z.of_nat n)) as Hr.
  cbn [app length] in Hw, Hr. change (Z.of_nat 0) with 0 in Hw, Hr.
  rewrite Hw, Hr by lia.
  rewrite drop_ge by lia. rewrite app_nil_r.
  do 2 f_equal; lia.
Qed.

(** The whole loop from any buffer of [MASK_SIZE] bytes. *)
Lemma CreateMask_while_from (fuel : nat) (buf : list Z) (s0 s1 : Z) :
  (1024 <= fuel)%nat ->
  length buf = Z.to_nat MASK_SIZE ->
  CreateMask_while fuel (MaskState buf 0 s0 s1 MASK_SIZE)
  = Ok (MaskState (mask_stream 1024 s0 s1) MASK_SIZE
          (fst (seeds_after 1024 s0 s1)) (snd (seeds_after 1024 s0 s1)) 0).
Proof.
  intros Hfuel Hbuf.
  apply (CreateMask_while_all 1024 fuel buf s0 s1 Hfuel Hbuf).
Qed.

Lemma MASK_SIZE_rounds : (1024 <= Z.to_nat MASK_SIZE)%nat.
Proof. apply Nat.leb_le. vm_compute. reflexivity. Qed.

(** [CreateMask] returns the bytes of 1024 full rounds. *)
Lemma CreateMask_fuel_stream (fuel : nat) (key : EncryptionKey) :
  (1024 <= fuel)%nat ->
  CreateMask_fuel fuel key = Ok (mask_stream 1024 (Seed0 key) (Seed1 key)).
Proof.
  intros Hfuel. unfold CreateMask_fuel, CreateMask_init.
  rewrite CreateMask_while_from; [reflexivity | exact Hfuel |].
  apply length_replicate.
Qed.

Lemma CreateMask_stream (key : EncryptionKey) :
  CreateMask key = Ok (mask_stream 1024 (Seed0 key) (Seed1 key)).
Proof. apply CreateMask_fuel_stream, MASK_SIZE_rounds. Qed.

(** A round on any state whose next [min i 4] bytes lie inside the
    buffer. *)
Lemma CreateMask_round_state (st : mask_state) :
  0 < ms_i st ->
  0 <= ms_dst8 st ->
  ms_dst8 st + Z.min (ms_i st) 4 <= Z.of_nat (length (ms_dst st)) ->
  CreateMask_round st
  = Ok (MaskState
          (take (Z.to_nat (ms_dst8 st)) (ms_dst st)
             ++ take (Z.to_nat (Z.min (ms_i st) 4))
                  (round_bytes (ms_seed0 st) (ms_seed1 st))
             ++ drop (Z.to_nat (ms_dst8 st) + Z.to_nat (Z.min (ms_i st) 4))
                  (ms_dst st))
          (ms_dst8 st + Z.min (ms_i st) 4)
          (next_seed0 (ms_seed0 st) (ms_seed1 st))
          (next_seed1 (ms_seed0 st) (ms_seed1 st))
          (if 4 <=? ms_i st then ms_i st - 4 else ms_i st)).
Proof.
  destruct st as [dst p s0 s1 i]. cbn [ms_dst ms_dst8 ms_seed0 ms_seed1 ms_i].
  intros Hi Hp Hroom.
  pose proof (CreateMask_round_eq (take (Z.to_nat p) dst)
                (drop (Z.to_nat p) dst) s0 s1 i Hi) as Hround.
  rewrite take_drop, length_take_le, Z2Nat.id in Hround by lia.
  rewrite drop_drop in Hround.
  apply Hround. rewrite length_drop. lia.
Qed.

(** C2: a round takes [t0 = runningSeed0] and
    [t1 = runningSeed1 XOR 0xF7654321], leaves
    [runningSeed0 = (RotateLeft(t1, 25) + t0) mod 2^32] and
    [runningSeed1 = RotateLeft(t0, 29)], and stores behind [dst8] the
    first [min i 4] of the bytes [(t0 >> 3) & 0xFF], [(t0 >> 11) & 0xFF],
    [(t0 >> 19) & 0xFF], [(runningSeed1 >> 24) & 0xFF] (with the updated
    runningSeed1), in that order. *)
Theorem CreateMask_round_spec (st : mask_state) :
  0 < ms_i st ->
  0 <= ms_dst8 st ->
  ms_dst8 st + Z.min (ms_i st) 4 <= Z.of_nat (length (ms_dst st)) ->
  let t0 := ms_seed0 st in
  let t1 := Z.lxor (ms_seed1 st) 0xF7654321 in
  let runningSeed0 := (rol32 t1 25 + t0) mod 2 ^ 32 in
  let runningSeed1 := rol32 t0 29 in
  let emitted := Z.to_nat (Z.min (ms_i st) 4) in
  exists st',
    CreateMask_round st = Ok st'
    /\ ms_seed0 st' = runningSeed0
    /\ ms_seed1 st' = runningSeed1
    /\ ms_dst8 st' = ms_dst8 st + Z.of_nat emitted
    /\ ms_dst st'
       = take (Z.to_nat (ms_dst8 st)) (ms_dst st)
           ++ take emitted
                [ Z.land (Z.shiftr t0 3) 0xFF;
                  Z.land (Z.shiftr t0 11) 0xFF;
                  Z.land (Z.shiftr t0 19) 0xFF;
                  Z.land (Z.shiftr runningSeed1 24) 0xFF ]
           ++ drop (Z.to_nat (ms_dst8 st) + emitted) (ms_dst st).
Proof.
  intros Hi Hp Hroom t0 t1 runningSeed0 runningSeed1 emitted.
  eexists. split; [apply CreateMask_round_state; assumption|].
  cbn [ms_dst ms_dst8 ms_seed0 ms_seed1 ms_i].
  repeat split. subst emitted. lia.
Qed.

Lemma CreateMask_round_spec_witness :
  0 < ms_i sample_round_state
  /\ 0 <= ms_dst8 sample_round_state
  /\ ms_dst8 sample_round_state + Z.min (ms_i sample_round_state) 4
     <= Z.of_nat (length (ms_dst sample_round_state))
  /\ exists st',
       CreateMask_round sample_round_state = Ok st'
       /\ ms_seed0 st'
          = (rol32 (Z.lxor 0x9ABCDEF0 0xF7654321) 25 + 0x12345678) mod 2 ^ 32
       /\ ms_seed1 st' = rol32 0x12345678 29
       /\ ms_dst8 st' = 5
       /\ ms_dst st' = [9; 0xCF; 0x8A; 0x46; 0x02; 9].
Proof.
  assert (H1 : 0 < ms_i sample_round_state) by (vm_compute; reflexivity).
  assert (H2 : 0 <= ms_dst8 sample_round_state) by (vm_compute; discriminate).
  assert (H3 : ms_dst8 sample_round_state + Z.min (ms_i sample_round_state) 4
               <= Z.of_nat (length (ms_dst sample_round_state)))
    by (vm_compute; discriminate).
  repeat split; try assumption.
  exact (CreateMask_round_spec sample_round_state H1 H2 H3).
Defined.

(** The body of the loop on a state no run reaches: entered with three
    bytes to go it would store three bytes and leave the counter at
    three. *)
Lemma CreateMask_round_partial_keeps_counter :
  exists st',
    CreateMask_round sample_partial_state = Ok st'
    /\ ms_i sample_partial_state = 3
    /\ ms_dst8 st' - ms_dst8 sample_partial_state = 3
    /\ ms_dst st' = [9; 0xCF; 0x8A; 0x46; 9; 9]
    /\ ms_i st' = 3
    /\ ms_i st' <> ms_i sample_partial_state - 3.
Proof. eexists. repeat split; vm_compute; congruence. Qed.

(** The body of the loop on any state: only the branch [i >= 4] touches
    the counter.  Entered with four bytes or more to go the body stores
    four bytes and takes four off [i]; the branches for fewer, which the
    loop of [CreateMask] never enters, would store that many bytes and
    leave [i] as it was. *)
Lemma CreateMask_round_counter (st : mask_state) :
  0 < ms_i st ->
  0 <= ms_dst8 st ->
  ms_dst8 st + Z.min (ms_i st) 4 <= Z.of_nat (length (ms_dst st)) ->
  exists st',
    CreateMask_round st = Ok st'
    /\ length (ms_dst st') = length (ms_dst st)
    /\ (if ms_i st <? 4
        then ms_dst8 st' = ms_dst8 st + ms_i st /\ ms_i st' = ms_i st
        else ms_dst8 st' = ms_dst8 st + 4 /\ ms_i st' = ms_i st - 4)
    /\ ms_dst st'
       = take (Z.to_nat (ms_dst8 st)) (ms_dst st)
           ++ take (Z.to_nat (ms_dst8 st' - ms_dst8 st))
                (round_bytes (ms_seed0 st) (ms_seed1 st))
           ++ drop (Z.to_nat (ms_dst8 st')) (ms_dst st).
Proof.
  intros Hi Hp Hroom.
  eexists. split; [apply CreateMask_round_state; assumption|].
  cbn [ms_dst ms_dst8 ms_seed0 ms_seed1 ms_i].
  assert (Hrb : length (round_bytes (ms_seed0 st) (ms_seed1 st)) = 4%nat)
    by reflexivity.
  split; [|split].
  - rewrite !length_app, !length_take, length_drop, Hrb. lia.
  - destruct (Z.ltb_spec (ms_i st) 4) as [Hlt|Hge].
    + replace (4 <=? ms_i st) with false by (symmetry; apply Z.leb_gt; lia).
      split; [lia | reflexivity].
    + replace (4 <=? ms_i st) with true by (symmetry; apply Z.leb_le; lia).
      split; [lia | reflexivity].
  - do 3 f_equal; lia.
Qed.

(** C8: for every key the generator returns a buffer of exactly 4096
    bytes, and every position of it has been written: [dst8] ends 4096
    bytes on, and whatever the 4096 bytes of the buffer held before the
    loop, the loop leaves in it the bytes of the 1024 rounds, which is the
    buffer [CreateMask] returns. *)
Theorem CreateMask_fills_buffer (key : EncryptionKey) (buf : list Z) :
  length buf = Z.to_nat MASK_SIZE ->
  exists st,
    CreateMask_while (Z.to_nat MASK_SIZE)
      (MaskState buf 0 (Seed0 key) (Seed1 key) MASK_SIZE) = Ok st
    /\ CreateMask key = Ok (ms_dst st)
    /\ Z.of_nat (length (ms_dst st)) = 4096
    /\ ms_dst8 st = 4096
    /\ ms_i st = 0
    /\ ms_dst st = mask_stream 1024 (Seed0 key) (Seed1 key).
Proof.
  intros Hbuf. eexists.
  split; [apply CreateMask_while_from; [apply MASK_SIZE_rounds | exact Hbuf]|].
  cbn [ms_dst ms_dst8 ms_i].
  split; [apply CreateMask_stream|].
  split; [|repeat split].
  rewrite length_mask_stream. reflexivity.
Qed.

Lemma CreateMask_fills_buffer_witness :
  length (replicate (Z.to_nat MASK_SIZE) 0xAA) = Z.to_nat MASK_SIZE
  /\ exists st,
       CreateMask_while (Z.to_nat MASK_SIZE)
         (MaskState (replicate (Z.to_nat MASK_SIZE) 0xAA) 0 0 0 MASK_SIZE) = Ok st
       /\ CreateMask {| Seed0 := 0; Seed1 := 0 |} = Ok (ms_dst st)
       /\ Z.of_nat (length (ms_dst st)) = 4096
       /\ ms_dst8 st = 4096
       /\ ms_i st = 0
       /\ ms_dst st = mask_stream 1024 0 0.
Proof.
  assert (Hbuf : length (replicate (Z.to_nat MASK_SIZE) 0xAA) = Z.to_nat MASK_SIZE)
    by (vm_compute; reflexivity).
  split; [exact Hbuf|].
  exact (CreateMask_fills_buffer {| Seed0 := 0; Seed1 := 0 |}
           (replicate (Z.to_nat MASK_SIZE) 0xAA) Hbuf).
Defined.

(** The round after [n] rounds. *)
Lemma CreateMask_rounds_succ (n : nat) (st : mask_state) :
  CreateMask_rounds (S n) st
  = (st_n <- CreateMask_rounds n st ;; CreateMask_round st_n).
Proof.
  revert st. induction n as [|n IH]; intros st.
  - cbn [CreateMask_rounds bind]. destruct (CreateMask_round st); reflexivity.
  - change (CreateMask_rounds (S (S n)) st)
      with (st1 <- CreateMask_round st ;; CreateMask_rounds (S n) st1).
    cbn [CreateMask_rounds].
    destruct (CreateMask_round st) as [st1| |]; cbn [bind];
      [apply IH | reflexivity | reflexivity].
Qed.

(** The first [n] iterations of the loop are [n] rounds, as long as
    [4 * n] bytes or more are to go. *)
Lemma CreateMask_while_split (n fuel : nat) (pre suf : list Z) (s0 s1 i : Z) :
  4 * Z.of_nat n <= i ->
  (4 * n <= length suf)%nat ->
  CreateMask_while (n + fuel)
    (MaskState (pre ++ suf) (Z.of_nat (length pre)) s0 s1 i)
  = (st <- CreateMask_rounds n
             (MaskState (pre ++ suf) (Z.of_nat (length pre)) s0 s1 i) ;;
     CreateMask_while fuel st).
Proof.
  revert pre suf s0 s1 i.
  induction n as [|n IH]; intros pre suf s0 s1 i Hi Hsuf.
  - reflexivity.
  - change (S n + fuel)%nat with (S (n + fuel)).
    cbn [CreateMask_while CreateMask_rounds ms_i].
    replace (0 <? i) with true by (symmetry; apply Z.ltb_lt; lia).
    rewrite CreateMask_round_full by lia. cbn [bind].
    apply IH; rewrite ?length_drop; lia.
Qed.

(** The states of a run of [CreateMask]: after [m <= 1024] rounds. *)
Lemma CreateMask_rounds_init (key : EncryptionKey) (m : nat) :
  (m <= 1024)%nat ->
  CreateMask_rounds m (CreateMask_init key)
  = Ok (MaskState
          (mask_stream m (Seed0 key) (Seed1 key) ++ drop (4 * m) mask_buffer)
          (4 * Z.of_nat m)
          (fst (seeds_after m (Seed0 key) (Seed1 key)))
          (snd (seeds_after m (Seed0 key) (Seed1 key)))
          (MASK_SIZE - 4 * Z.of_nat m)).
Proof.
  intros Hm.
  assert (Hsize : MASK_SIZE = 4 * Z.of_nat 1024) by reflexivity.
  assert (Hbuf : length mask_buffer = (4 * 1024)%nat) by apply length_replicate.
  apply (CreateMask_rounds_full m [] mask_buffer); lia.
Qed.

(** The loop of a run of [CreateMask] begins with [m <= 1024] rounds. *)
Lemma CreateMask_while_init (key : EncryptionKey) (m fuel : nat) :
  (m <= 1024)%nat ->
  CreateMask_while (m + fuel) (CreateMask_init key)
  = (st <- CreateMask_rounds m (CreateMask_init key) ;; CreateMask_while fuel st).
Proof.
  intros Hm.
  assert (Hsize : MASK_SIZE = 4 * Z.of_nat 1024) by reflexivity.
  assert (Hbuf : length mask_buffer = (4 * 1024)%nat) by apply length_replicate.
  apply (CreateMask_while_split m fuel [] mask_buffer); lia.
Qed.

(** C10: mask generation terminates for every key, after exactly 1024
    iterations of the loop.  The first [n] iterations of [while (i > 0)]
    are [n] rounds, for every [n < 1024]; after them the counter is
    [4096 - 4 n], a positive multiple of four, so the loop goes on (with
    [n] iterations of fuel it has not finished) and all three tests
    [i >= 2], [i >= 3], [i >= 4] succeed: the iteration stores four bytes
    and takes four off the counter.  After the 1024th the counter is zero
    and the loop ends in that state: any fuel of 1024 or more gives it,
    and the same mask. *)
Theorem CreateMask_terminates (key : EncryptionKey) (n : nat) :
  (n < 1024)%nat ->
  (exists mask,
      CreateMask key = Ok mask
      /\ forall fuel, (1024 <= fuel)%nat -> CreateMask_fuel fuel key = Ok mask)
  /\ (forall fuel,
        CreateMask_while (n + fuel) (CreateMask_init key)
        = (st <- CreateMask_rounds n (CreateMask_init key) ;;
           CreateMask_while fuel st))
  /\ CreateMask_while n (CreateMask_init key) = OutOfFuel
  /\ (exists st st',
         CreateMask_rounds n (CreateMask_init key) = Ok st
         /\ ms_i st = MASK_SIZE - 4 * Z.of_nat n
         /\ 4 <= ms_i st
         /\ ms_i st mod 4 = 0
         /\ CreateMask_round st = Ok st'
         /\ CreateMask_rounds (S n) (CreateMask_init key) = Ok st'
         /\ ms_dst8 st' = ms_dst8 st + 4
         /\ ms_i st' = ms_i st - 4
         /\ forall fuel,
              CreateMask_while (n + S fuel) (CreateMask_init key)
              = CreateMask_while fuel st')
  /\ (exists st_end,
         CreateMask_rounds 1024 (CreateMask_init key) = Ok st_end
         /\ ms_i st_end = 0
         /\ forall fuel, (1024 <= fuel)%nat ->
              CreateMask_while fuel (CreateMask_init key) = Ok st_end).
Proof.
  intros Hn.
  assert (Hsize : MASK_SIZE = 4 * Z.of_nat 1024) by reflexivity.
  pose proof (CreateMask_rounds_init key) as Hrounds.
  pose proof (CreateMask_rounds_succ n (CreateMask_init key)) as Hstep.
  rewrite (Hrounds n) in Hstep by lia. cbn [bind] in Hstep.
  rewrite (Hrounds (S n)) in Hstep by lia.
  split; [|split; [|split; [|split]]].
  - exists (mask_stream 1024 (Seed0 key) (Seed1 key)).
    split; [apply CreateMask_stream|].
    intros fuel Hfuel. apply CreateMask_fuel_stream, Hfuel.
  - intros fuel. apply CreateMask_while_init. lia.
  - rewrite <- (Nat.add_0_r n) at 1.
    rewrite CreateMask_while_init, Hrounds by lia. cbn [bind CreateMask_while ms_i].
    replace (0 <? MASK_SIZE - 4 * Z.of_nat n) with true
      by (symmetry; apply Z.ltb_lt; lia).
    reflexivity.
  - do 2 eexists.
    split; [apply Hrounds; lia|].
    cbn [ms_i ms_dst8].
    split; [reflexivity|]. split; [lia|].
    split; [rewrite Hsize; replace (4 * Z.of_nat 1024 - 4 * Z.of_nat n)
              with ((Z.of_nat 1024 - Z.of_nat n) * 4) by lia;
            apply Z.mod_mul; lia|].
    split; [symmetry; exact Hstep|].
    split; [apply Hrounds; lia|].
    cbn [ms_i ms_dst8].
    split; [lia|]. split; [lia|].
    intros fuel.
    replace (n + S fuel)%nat with (S n + fuel)%nat by lia.
    rewrite CreateMask_while_init, Hrounds by lia. reflexivity.
  - eexists. split; [apply Hrounds; lia|].
    cbn [ms_i]. split; [lia|].
    intros fuel Hfuel.
    replace fuel with (1024 + (fuel - 1024))%nat by lia.
    rewrite CreateMask_while_init, Hrounds by lia. cbn [bind].
    destruct (fuel - 1024)%nat; cbn [CreateMask_while ms_i];
      replace (0 <? MASK_SIZE - 4 * Z.of_nat 1024) with false by reflexivity;
      reflexivity.
Qed.

Lemma CreateMask_terminates_witness :
  (5 < 1024)%nat
  /\ (forall fuel,
        CreateMask_while (5 + fuel) (CreateMask_init {| Seed0 := 0; Seed1 := 0 |})
        = (st <- CreateMask_rounds 5 (CreateMask_init {| Seed0 := 0; Seed1 := 0 |}) ;;
           CreateMask_while fuel st))
  /\ CreateMask_while 5 (CreateMask_init {| Seed0 := 0; Seed1 := 0 |}) = OutOfFuel
  /\ exists st st',
       CreateMask_rounds 5 (CreateMask_init {| Seed0 := 0; Seed1 := 0 |}) = Ok st
       /\ ms_i st = MASK_SIZE - 4 * Z.of_nat 5
       /\ 4 <= ms_i st
       /\ ms_i st mod 4 = 0
       /\ CreateMask_round st = Ok st'
       /\ CreateMask_rounds 6 (CreateMask_init {| Seed0 := 0; Seed1 := 0 |}) = Ok st'
       /\ ms_dst8 st' = ms_dst8 st + 4
       /\ ms_i st' = ms_i st - 4
       /\ forall fuel,
            CreateMask_while (5 + S fuel)
              (CreateMask_init {| Seed0 := 0; Seed1 := 0 |})
            = CreateMask_while fuel st'.
Proof.
  assert (H : (5 < 1024)%nat) by (apply Nat.ltb_lt; vm_compute; reflexivity).
  pose proof (CreateMask_terminates {| Seed0 := 0; Seed1 := 0 |} 5 H)
    as [_ [Hlink [Hfuel [Hround _]]]].
  split; [exact H|]. split; [exact Hlink|]. split; [exact Hfuel | exact Hround].
Defined.



(** C5, refuted as stated: for the key [{0, 0}] the first byte of the
    mask is 0, while the expression of the claim is 0x50. *)
Lemma CreateMask_zero_key_first_byte_differs :
  exists mask,
    CreateMask {| Seed0 := 0; Seed1 := 0 |} = Ok mask
    /\ mask !! 0%nat = Some 0
    /\ Z.land (Z.shiftr (Z.land (rol32 (Z.lxor 0 0xF7654321) 25) 0xFFFFFFFF) 3) 0xFF
       = 0x50
    /\ mask !! 0%nat
       <> Some (Z.land
                  (Z.shiftr (Z.land (rol32 (Z.lxor 0 0xF7654321) 25) 0xFFFFFFFF) 3)
                  0xFF).
Proof.
  exists (mask_stream 1024 0 0).
  split; [apply (CreateMask_stream {| Seed0 := 0; Seed1 := 0 |})|].
  repeat split; vm_compute; congruence.
Qed.

(** C5, as amended: for the key [{0, 0}] the first byte of the mask is
    [(0 >> 3) & 0xFF = 0], taken from seed0 as it is before the round
    updates it; [(RotateLeft(0 XOR 0xF7654321, 25) & 0xFFFFFFFF) >> 3 & 0xFF],
    which is 0x50, is the first byte of the second round, [mask[4]]. *)
Theorem CreateMask_zero_key_bytes :
  exists mask,
    CreateMask {| Seed0 := 0; Seed1 := 0 |} = Ok mask
    /\ mask !! 0%nat = Some (Z.land (Z.shiftr 0 3) 0xFF)
    /\ mask !! 0%nat = Some 0
    /\ mask !! 4%nat
       = Some (Z.land
                 (Z.shiftr (Z.land (rol32 (Z.lxor 0 0xF7654321) 25) 0xFFFFFFFF) 3)
                 0xFF)
    /\ mask !! 4%nat = Some 0x50.
Proof.
  exists (mask_stream 1024 0 0).
  split; [apply (CreateMask_stream {| Seed0 := 0; Seed1 := 0 |})|].
  repeat split; vm_compute; reflexivity.
Qed.

(** ** Decrypt *)

Lemma read_total (buf : list Z) (i : Z) :
  0 <= i < Z.of_nat (length buf) -> read buf i = Ok (buf !!! Z.to_nat i).
Proof.
  intros Hi.
  destruct (lookup_lt_is_Some_2 buf (Z.to_nat i) ltac:(lia)) as [x Hx].
  rewrite (list_lookup_total_correct _ _ _ Hx).
  rewrite <- (Z2Nat.id i) at 1 by lia. apply read_lookup, Hx.
Qed.

Lemma land_255 (v : Z) : Z.land v 0xFF = v mod 256.
Proof. change 0xFF with (Z.ones 8). rewrite Z.land_ones by lia. reflexivity. Qed.

Lemma mask_index_range (v : Z) : 0 <= v mod MASK_SIZE < 4096.
Proof. apply Z.mod_pos_bound. reflexivity. Qed.

(** The iteration after [n] iterations. *)
Lemma Decrypt_for_succ (mask8 : list Z) (n : nat) (i : Z) (st : decrypt_state) :
  Decrypt_for mask8 (S n) i st
  = (st_n <- Decrypt_for mask8 n i st ;; Decrypt_body mask8 (i + Z.of_nat n) st_n).
Proof.
  revert i st. induction n as [|n IH]; intros i st.
  - cbn [Decrypt_for bind]. rewrite Z.add_0_r.
    destruct (Decrypt_body mask8 i st); reflexivity.
  - change (Decrypt_for mask8 (S (S n)) i st)
      with (st1 <- Decrypt_body mask8 i st ;; Decrypt_for mask8 (S n) (i + 1) st1).
    change (Decrypt_for mask8 (S n) i st)
      with (st1 <- Decrypt_body mask8 i st ;; Decrypt_for mask8 n (i + 1) st1).
    destruct (Decrypt_body mask8 i st) as [st1| |]; cbn [bind];
      [|reflexivity|reflexivity].
    rewrite IH.
    replace (i + 1 + Z.of_nat n) with (i + Z.of_nat (S n)) by lia.
    reflexivity.
Qed.

Lemma length_index_sequence (n : nat) (b c : Z) :
  length (index_sequence n b c) = n.
Proof.
  revert b c. induction n as [|n IH]; intros b c; cbn; [reflexivity|].
  now rewrite IH.
Qed.

Lemma index_shift (v step k : Z) :
  (v mod 4096 + step + step * k) mod 4096 = (v + step * (k + 1)) mod 4096.
Proof.
  rewrite <- Z.add_assoc, Zplus_mod_idemp_l. f_equal. lia.
Qed.

(** The index triple of position [i], in closed form. *)
Lemma index_sequence_lookup (n i : nat) (b c : Z) :
  (i < n)%nat ->
  index_sequence n b c !! i
  = Some ((b + 7 * Z.of_nat i) mod 4096,
          ((b + 7 * Z.of_nat i) mod 4096 + 1) mod 4096,
          (c + 3 * Z.of_nat i) mod 4096).
Proof.
  revert i b c. induction n as [|n IH]; intros i b c Hi; [lia|].
  destruct i as [|i]; cbn [index_sequence lookup list_lookup].
  - change (Z.of_nat 0) with 0. rewrite !Z.mul_0_r, !Z.add_0_r. reflexivity.
  - rewrite IH by lia.
    rewrite (index_shift b 7 (Z.of_nat i)), (index_shift c 3 (Z.of_nat i)).
    replace (7 * (Z.of_nat i + 1)) with (7 * Z.of_nat (S i)) by lia.
    replace (3 * (Z.of_nat i + 1)) with (3 * Z.of_nat (S i)) by lia.
    reflexivity.
Qed.

(** The rolling indices left after [n] positions, in closed form. *)
Lemma index_after_closed (n : nat) (b c : Z) :
  index_after (S n) b c
  = ((b + 7 * Z.of_nat n) mod 4096 + 7, (c + 3 * Z.of_nat n) mod 4096 + 3).
Proof.
  revert b c. induction n as [|n IH]; intros b c.
  - cbn [index_after]. change (Z.of_nat 0) with 0.
    rewrite !Z.mul_0_r, !Z.add_0_r. reflexivity.
  - change (index_after (S (S n)) b c)
      with (index_after (S n) (b mod 4096 + 7) (c mod 4096 + 3)).
    rewrite IH.
    rewrite (index_shift b 7 (Z.of_nat n)), (index_shift c 3 (Z.of_nat n)).
    replace (7 * (Z.of_nat n + 1)) with (7 * Z.of_nat (S n)) by lia.
    replace (3 * (Z.of_nat n + 1)) with (3 * Z.of_nat (S n)) by lia.
    reflexivity.
Qed.

Lemma index_after_mod (n : nat) :
  fst (index_after n 0 0) mod 4096 = (7 * Z.of_nat n) mod 4096
  /\ snd (index_after n 0 0) mod 4096 = (3 * Z.of_nat n) mod 4096.
Proof.
  destruct n as [|n]; [split; reflexivity|].
  rewrite index_after_closed. cbn [fst snd]. rewrite !Z.add_0_l.
  rewrite !Zplus_mod_idemp_l. split; f_equal; lia.
Qed.

(** The loop of [Decrypt] over a mask of [MASK_SIZE] bytes, as
    [CreateMask] returns it: every index into the mask is inside it. *)
Section DecryptOverMask.

Variable mask8 : list Z.
Hypothesis mask8_size : Z.of_nat (length mask8) = 4096.

(** The body of the loop at an index inside the buffer. *)
Lemma Decrypt_body_state (st : decrypt_state) (i : nat) (x : Z) :
  ds_data st !! i = Some x ->
  Decrypt_body mask8 (Z.of_nat i) st
  = Ok (DecryptState
          (<[i := transform_byte mask8
                    (ds_b st mod 4096,
                     (ds_b st mod 4096 + 1) mod 4096,
                     ds_c st mod 4096) x]> (ds_data st))
          (ds_b st mod 4096 + 7)
          (ds_c st mod 4096 + 3)).
Proof.
  intros Hx. unfold Decrypt_body. pose proof mask8_size as Hmask.
  pose proof (mask_index_range (ds_b st)) as Ha.
  pose proof (mask_index_range (ds_c st)) as Hc.
  pose proof (mask_index_range (ds_b st mod MASK_SIZE + 1)) as Hb.
  change MASK_SIZE with 4096 in *.
  rewrite (to_uint32_small (ds_b st mod 4096 + 1)) by lia.
  rewrite (to_uint32_small (ds_b st mod 4096 + 7)) by lia.
  rewrite (to_uint32_small (ds_c st mod 4096 + 3)) by lia.
  rewrite (read_lookup _ _ _ Hx). cbn [bind].
  rewrite !read_total by lia. cbn [bind].
  rewrite write_inside by (eapply lookup_lt_Some; exact Hx). cbn [bind].
  unfold transform_byte. rewrite land_255. reflexivity.
Qed.

(** [todo] iterations from the index where the buffer is split. *)
Lemma Decrypt_for_eq (todo : nat) (pre suf : list Z) (b c : Z) :
  (todo <= length suf)%nat ->
  Decrypt_for mask8 todo (Z.of_nat (length pre)) (DecryptState (pre ++ suf) b c)
  = Ok (DecryptState
          (pre ++ zip_with (transform_byte mask8) (index_sequence todo b c)
                    (take todo suf)
               ++ drop todo suf)
          (fst (index_after todo b c)) (snd (index_after todo b c))).
Proof.
  revert pre suf b c.
  induction todo as [|k IH]; intros pre suf b c Htodo.
  - cbn [Decrypt_for index_sequence index_after zip_with take fst snd app].
    rewrite drop_0. reflexivity.
  - destruct suf as [|x suf]; [cbn in Htodo; lia|]. cbn [length] in Htodo.
    cbn [Decrypt_for].
    rewrite (Decrypt_body_state _ (length pre) x)
      by (cbn [ds_data]; rewrite lookup_app_r, Nat.sub_diag by lia; reflexivity).
    cbn [bind ds_data ds_b ds_c].
    rewrite insert_app_r_alt, Nat.sub_diag by lia. cbn [insert list_insert].
    replace (Z.of_nat (length pre) + 1)
      with (Z.of_nat (length (pre ++ [transform_byte mask8
              (b mod 4096, (b mod 4096 + 1) mod 4096, c mod 4096) x])))
      by (rewrite length_app; cbn; lia).
    rewrite (cons_middle _ pre suf), app_assoc.
    rewrite IH by lia.
    cbn [index_sequence index_after zip_with take drop].
    rewrite <- !app_assoc. reflexivity.
Qed.

(** The state after the first [n] positions. *)
Lemma Decrypt_after_eq (data : list Z) (n : nat) :
  (n <= length data)%nat ->
  Decrypt_after mask8 data n
  = Ok (DecryptState
          (zip_with (transform_byte mask8) (index_sequence n 0 0) (take n data)
             ++ drop n data)
          (fst (index_after n 0 0)) (snd (index_after n 0 0))).
Proof.
  intros Hn.
  apply (Decrypt_for_eq n [] data 0 0 Hn).
Qed.

(** C1: over a mask of 4096 bytes the decoder starts from [b = c = 0]
    and takes the positions in ascending order.  At position [i] the
    buffer still holds the ciphertext from [i] on; with [a = b mod 4096],
    [c = c mod 4096] and [b = (a + 1) mod 4096] the iteration replaces
    byte [i] by [(((ciphertext[i] - mask[b]) XOR mask[c]) + mask[a]) mod 256]
    and leaves [b = a + 7] and [c = c + 3], unreduced.  The result is the
    buffer after the last position. *)
Theorem Decrypt_steps (data : list Z) :
  Decrypt_after mask8 data 0 = Ok (DecryptState data 0 0)
  /\ (forall i : nat, (i < length data)%nat ->
        exists st,
          Decrypt_after mask8 data i = Ok st
          /\ drop i (ds_data st) = drop i data
          /\ Decrypt_after mask8 data (S i)
             = Ok (DecryptState
                     (<[i := (Z.lxor
                                (data !!! i
                                   - mask8 !!! Z.to_nat ((ds_b st mod 4096 + 1) mod 4096))
                                (mask8 !!! Z.to_nat (ds_c st mod 4096))
                              + mask8 !!! Z.to_nat (ds_b st mod 4096)) mod 256]>
                        (ds_data st))
                     (ds_b st mod 4096 + 7)
                     (ds_c st mod 4096 + 3)))
  /\ (exists st,
         Decrypt_after mask8 data (length data) = Ok st
         /\ Decrypt_with mask8 data = Ok (ds_data st)
         /\ length (ds_data st) = length data).
Proof.
  split; [reflexivity|]. split.
  - intros i Hi.
    destruct (lookup_lt_is_Some_2 data i Hi) as [x Hx].
    eexists. split; [apply Decrypt_after_eq; lia|].
    cbn [ds_data ds_b ds_c].
    assert (Hlen : length (zip_with (transform_byte mask8) (index_sequence i 0 0)
                             (take i data)) = i).
    { rewrite length_zip_with_l_eq; rewrite length_index_sequence;
        [reflexivity | rewrite length_take_le; lia]. }
    split; [rewrite drop_app_length' by (symmetry; exact Hlen); reflexivity|].
    unfold Decrypt_after. rewrite Decrypt_for_succ.
    fold (Decrypt_after mask8 data i).
    rewrite Decrypt_after_eq by lia. cbn [bind].
    rewrite Z.add_0_l.
    rewrite (Decrypt_body_state _ i x).
    + cbn [ds_data ds_b ds_c]. unfold transform_byte.
      rewrite (list_lookup_total_correct _ _ _ Hx). reflexivity.
    + cbn [ds_data]. rewrite lookup_app_r by lia.
      rewrite Hlen, Nat.sub_diag, lookup_drop, Nat.add_0_r. exact Hx.
  - eexists. split; [apply Decrypt_after_eq; lia|].
    cbn [ds_data]. split.
    + unfold Decrypt_with. rewrite Decrypt_after_eq by lia.
      reflexivity.
    + rewrite drop_all, app_nil_r, take_ge by lia.
      rewrite length_zip_with_l_eq; rewrite length_index_sequence; reflexivity.
Qed.

(** C9: over a mask of 4096 bytes, computing the index triples of the
    positions [0 .. N-1] first, by the recurrence alone, and then applying
    the per-byte transform gives the plaintext of the one-pass decoder,
    for every buffer of any length [N].  The triple of position [i] is
    [(7 i mod 4096, (7 i mod 4096 + 1) mod 4096, 3 i mod 4096)], a
    function of [i] alone, and it is the triple the one-pass decoder
    uses at [i]. *)
Theorem Decrypt_precomputed_equiv (data : list Z) :
  Decrypt_with mask8 data = Ok (Decrypt_precomputed mask8 data)
  /\ forall i : nat, (i < length data)%nat ->
       index_sequence (length data) 0 0 !! i
       = Some ((7 * Z.of_nat i) mod 4096,
               ((7 * Z.of_nat i) mod 4096 + 1) mod 4096,
               (3 * Z.of_nat i) mod 4096)
       /\ exists st,
            Decrypt_after mask8 data i = Ok st
            /\ ds_b st mod 4096 = (7 * Z.of_nat i) mod 4096
            /\ ds_c st mod 4096 = (3 * Z.of_nat i) mod 4096.
Proof.
  split.
  - unfold Decrypt_with, Decrypt_precomputed.
    rewrite Decrypt_after_eq by lia. cbn [bind ds_data].
    rewrite drop_all, app_nil_r, take_ge by lia. reflexivity.
  - intros i Hi. split.
    + rewrite index_sequence_lookup by exact Hi. rewrite !Z.add_0_l. reflexivity.
    + eexists. split; [apply Decrypt_after_eq; lia|].
      cbn [ds_b ds_c]. apply index_after_mod.
Qed.

End DecryptOverMask.

Lemma Decrypt_steps_witness :
  Z.of_nat (length sample_mask) = 4096
  /\ (1 < length [0x10; 0x20; 0x30])%nat
  /\ Decrypt_after sample_mask [0x10; 0x20; 0x30] 0
     = Ok (DecryptState [0x10; 0x20; 0x30] 0 0)
  /\ (exists st,
        Decrypt_after sample_mask [0x10; 0x20; 0x30] 1 = Ok st
        /\ drop 1 (ds_data st) = [0x20; 0x30]
        /\ Decrypt_after sample_mask [0x10; 0x20; 0x30] 2
           = Ok (DecryptState
                   (<[1%nat := (Z.lxor
                              (0x20 - sample_mask
                                        !!! Z.to_nat ((ds_b st mod 4096 + 1) mod 4096))
                              (sample_mask !!! Z.to_nat (ds_c st mod 4096))
                            + sample_mask !!! Z.to_nat (ds_b st mod 4096)) mod 256]>
                      (ds_data st))
                   (ds_b st mod 4096 + 7)
                   (ds_c st mod 4096 + 3)))
  /\ exists st,
       Decrypt_after sample_mask [0x10; 0x20; 0x30] 3 = Ok st
       /\ Decrypt_with sample_mask [0x10; 0x20; 0x30] = Ok (ds_data st)
       /\ length (ds_data st) = 3%nat.
Proof.
  assert (Hmask : Z.of_nat (length sample_mask) = 4096)
    by (vm_compute; reflexivity).
  assert (Hpos : (1 < length [0x10; 0x20; 0x30])%nat) by (cbn; lia).
  pose proof (Decrypt_steps sample_mask Hmask [0x10; 0x20; 0x30])
    as [Hstart [Hstep Hend]].
  split; [exact Hmask|]. split; [exact Hpos|]. split; [exact Hstart|].
  split; [exact (Hstep 1%nat Hpos) | exact Hend].
Defined.

Lemma Decrypt_precomputed_equiv_witness :
  Z.of_nat (length sample_mask) = 4096
  /\ Decrypt_with sample_mask [0x10; 0x20; 0x30]
     = Ok (Decrypt_precomputed sample_mask [0x10; 0x20; 0x30]).
Proof.
  assert (Hmask : Z.of_nat (length sample_mask) = 4096)
    by (vm_compute; reflexivity).
  split; [exact Hmask|].
  exact (proj1 (Decrypt_precomputed_equiv sample_mask Hmask [0x10; 0x20; 0x30])).
Defined.

(** [Decrypt] under a key, in two passes. *)
Lemma Decrypt_key_precomputed (data : list Z) (key : EncryptionKey) :
  Decrypt data key
  = Ok (Decrypt_precomputed (mask_stream 1024 (Seed0 key) (Seed1 key)) data).
Proof.
  unfold Decrypt. rewrite CreateMask_stream. cbn [bind].
  unfold Decrypt_with, Decrypt_precomputed.
  rewrite Decrypt_after_eq; [|rewrite length_mask_stream; reflexivity|lia].
  cbn [bind ds_data].
  rewrite drop_all, app_nil_r, take_ge by lia. reflexivity.
Qed.

(** ** DecryptSea *)

Lemma to_int32_le (v : Z) : 0 <= v -> to_int32 v <= v.
Proof.
  intros Hv. unfold to_int32.
  pose proof (Z.mod_le (v + 2 ^ 31) (2 ^ 32)) as Hle. lia.
Qed.

(** Key derivation either yields a key or overflows on the length of the
    name; its loops never leave the name. *)
Lemma GetEncryptionKey_outcome (ck : char_kind) (fileName : string) :
  GetEncryptionKey ck fileName = Undefined
  \/ exists key, GetEncryptionKey ck fileName = Ok key.
Proof.
  unfold GetEncryptionKey.
  set (name := list_ascii_of_string fileName).
  destruct (to_int32 (Z.of_nat (length name)) - 1 <? - 2 ^ 31); [left; reflexivity|].
  right.
  pose proof (to_int32_le (Z.of_nat (length name)) ltac:(lia)) as Hle.
  rewrite seed0_loop_fold by lia. cbn [bind].
  rewrite (seed1_loop_fold ck name _ 0) by lia. cbn [bind].
  eexists. reflexivity.
Qed.

(** A buffer shorter than the checksum: [data.size() - 4] wraps around
    and the checksum is read outside the buffer. *)
Lemma DecryptSea_short (ck : char_kind) (fileName : string) (raw : list Z) :
  (length raw < 4)%nat -> DecryptSea ck fileName raw = Undefined.
Proof.
  intros Hshort. unfold DecryptSea.
  destruct (GetEncryptionKey_outcome ck fileName) as [-> | [key ->]];
    [reflexivity|].
  cbn [bind].
  cbn [memcpy_from]. rewrite read_outside; [reflexivity|].
  unfold to_size_t, SIZE_BITS.
  replace (Z.of_nat (length raw) - 4)
    with (Z.of_nat (length raw) - 4 + 2 ^ 64 + (-1) * 2 ^ 64) by lia.
  rewrite Z.mod_add by lia. rewrite Z.mod_small; lia.
Qed.

(** C4, what the code does: for every file name and every buffer of
    zero, one, two or three bytes, [DecryptSea] has no size check;
    [inputSize] wraps around to [2^64 - 4 + size] and the read of the
    checksum falls outside the buffer. *)
Theorem DecryptSea_short_input_undefined
  (ck : char_kind) (fileName : string) (b0 b1 b2 : Z) :
  to_size_t (Z.of_nat (length (@nil Z)) - 4) = 0xFFFFFFFFFFFFFFFC
  /\ DecryptSea ck fileName [] = Undefined
  /\ DecryptSea ck fileName [b0] = Undefined
  /\ DecryptSea ck fileName [b0; b1] = Undefined
  /\ DecryptSea ck fileName [b0; b1; b2] = Undefined.
Proof.
  split; [reflexivity|].
  repeat split; apply DecryptSea_short; cbn [length]; lia.
Qed.

Lemma memcpy_from_eq (buf : list Z) (j n : nat) :
  (j + n <= length buf)%nat ->
  memcpy_from buf (Z.of_nat j) n = Ok (take n (drop j buf)).
Proof.
  revert j. induction n as [|n IH]; intros j Hn; [reflexivity|].
  destruct (lookup_lt_is_Some_2 buf j ltac:(lia)) as [x Hx].
  cbn [memcpy_from]. rewrite (read_lookup _ _ _ Hx). cbn [bind].
  replace (Z.of_nat j + 1) with (Z.of_nat (S j)) by lia.
  rewrite IH by lia. cbn [bind].
  rewrite (drop_S _ _ _ Hx). reflexivity.
Qed.

(** A buffer that holds the checksum: the payload in front of the last
    four bytes is decoded under the key of the file name. *)
Lemma DecryptSea_payload (ck : char_kind) (fileName : string) (raw : list Z)
  (key : EncryptionKey) :
  GetEncryptionKey ck fileName = Ok key ->
  (4 <= length raw)%nat ->
  Z.of_nat (length raw) < 2 ^ SIZE_BITS ->
  DecryptSea ck fileName raw = Decrypt (take (length raw - 4) raw) key.
Proof.
  intros Hkey Hlen Hsize. unfold SIZE_BITS in Hsize.
  unfold DecryptSea. rewrite Hkey. cbn [bind].
  unfold to_size_t, SIZE_BITS. rewrite Z.mod_small by lia.
  replace (Z.of_nat (length raw) - 4) with (Z.of_nat (length raw - 4)) by lia.
  rewrite memcpy_from_eq by lia. cbn [bind].
  unfold resize. rewrite Nat2Z.id.
  replace (length raw - 4 - length raw)%nat with 0%nat by lia.
  cbn [replicate]. rewrite app_nil_r. reflexivity.
Qed.

(** A file of four bytes, the checksum alone, decodes to nothing. *)
Lemma DecryptSea_checksum_only (ck : char_kind) (fileName : string)
  (b0 b1 b2 b3 : Z) :
  Z.of_nat (String.length fileName) < 2 ^ 31 ->
  DecryptSea ck fileName [b0; b1; b2; b3] = Ok [].
Proof.
  intros Hname.
  rewrite (DecryptSea_payload ck fileName [b0; b1; b2; b3] _
             (GetEncryptionKey_folds ck fileName Hname));
    [|cbn; lia | reflexivity].
  cbn [length Nat.sub take]. rewrite Decrypt_key_precomputed. reflexivity.
Qed.

(** * Further properties of the decoder *)

(** ** Decrypt: totality, range, locality *)

Lemma transform_byte_range (mask8 : list Z) (abc : Z * Z * Z) (x : Z) :
  is_byte (transform_byte mask8 abc x).
Proof.
  destruct abc as [[a b] c]. unfold transform_byte, is_byte.
  apply Z.mod_pos_bound. lia.
Qed.

Lemma length_Decrypt_precomputed (mask8 data : list Z) :
  length (Decrypt_precomputed mask8 data) = length data.
Proof.
  unfold Decrypt_precomputed.
  rewrite length_zip_with_l_eq; rewrite length_index_sequence; reflexivity.
Qed.

(** Byte [i] of the plaintext is the transform of byte [i] of the
    ciphertext at the triple of [i]. *)
Lemma Decrypt_precomputed_lookup (mask8 data : list Z) (i : nat) :
  Decrypt_precomputed mask8 data !! i
  = transform_byte mask8 (index_triple i) <$> data !! i.
Proof.
  unfold Decrypt_precomputed. rewrite lookup_zip_with.
  destruct (data !! i) as [x|] eqn:Hx.
  - pose proof (lookup_lt_Some _ _ _ Hx) as Hlt.
    rewrite index_sequence_lookup by exact Hlt.
    rewrite !Z.add_0_l. reflexivity.
  - pose proof (proj1 (lookup_ge_None data i) Hx) as Hge.
    rewrite (proj2 (lookup_ge_None (index_sequence (length data) 0 0) i))
      by (rewrite length_index_sequence; exact Hge).
    reflexivity.
Qed.

Lemma Decrypt_precomputed_bytes (mask8 data : list Z) :
  Forall is_byte (Decrypt_precomputed mask8 data).
Proof.
  apply Forall_lookup. intros i y Hy.
  rewrite Decrypt_precomputed_lookup in Hy.
  destruct (data !! i) as [x|]; [|discriminate].
  inversion Hy. exact (transform_byte_range mask8 (index_triple i) x).
Qed.

(** X1: [Decrypt] never fails and never leaves the mask: for every
    buffer and every key it returns a buffer of the same length, every
    byte of which is below 256, whatever the values it was given. *)
Theorem Decrypt_total_bytes (data : list Z) (key : EncryptionKey) :
  exists out,
    Decrypt data key = Ok out
    /\ length out = length data
    /\ Forall is_byte out.
Proof.
  eexists. split; [apply Decrypt_key_precomputed|]. split.
  - apply length_Decrypt_precomputed.
  - apply Decrypt_precomputed_bytes.
Qed.

(** X2: decoding is positional: the plaintext of a buffer is a prefix of
    the plaintext of any longer buffer that starts with it. *)
Theorem Decrypt_prefix (front back : list Z) (key : EncryptionKey) :
  exists out_front out_all,
    Decrypt front key = Ok out_front
    /\ Decrypt (front ++ back) key = Ok out_all
    /\ take (length front) out_all = out_front
    /\ length (drop (length front) out_all) = length back.
Proof.
  do 2 eexists.
  split; [apply Decrypt_key_precomputed|].
  split; [apply Decrypt_key_precomputed|]. split.
  - apply list_eq. intros i.
    rewrite lookup_take, !Decrypt_precomputed_lookup.
    destruct (decide (i < length front)%nat) as [Hlt|Hge].
    + rewrite lookup_app_l by exact Hlt. reflexivity.
    + rewrite (proj2 (lookup_ge_None front i)) by lia. reflexivity.
  - rewrite length_drop, length_Decrypt_precomputed, length_app. lia.
Qed.

(** ** Decrypt: no two ciphertexts share a plaintext *)

Lemma add_mod_cancel (p q m : Z) :
  (p + m) mod 256 = (q + m) mod 256 -> p mod 256 = q mod 256.
Proof.
  intros H.
  replace p with (p + m - m) by lia. replace q with (q + m - m) by lia.
  rewrite <- (Zminus_mod_idemp_l (p + m)), <- (Zminus_mod_idemp_l (q + m)).
  rewrite H. reflexivity.
Qed.

Lemma lxor_mod_cancel (p q m : Z) :
  Z.lxor p m mod 256 = Z.lxor q m mod 256 -> p mod 256 = q mod 256.
Proof.
  change 256 with (2 ^ 8). rewrite <- !lxor_mod_pow2 by lia. intros H.
  rewrite <- (Z.lxor_0_r (p mod 2 ^ 8)), <- (Z.lxor_0_r (q mod 2 ^ 8)).
  rewrite <- (Z.lxor_nilpotent (m mod 2 ^ 8)), <- !Z.lxor_assoc, H.
  reflexivity.
Qed.

Lemma Ok_inj {A : Type} (a b : A) : Ok a = Ok b -> a = b.
Proof. intros H. inversion H. reflexivity. Qed.

(** The per-byte transform is one-to-one on bytes. *)
Lemma transform_byte_injective (mask8 : list Z) (abc : Z * Z * Z) (x y : Z) :
  is_byte x -> is_byte y ->
  transform_byte mask8 abc x = transform_byte mask8 abc y -> x = y.
Proof.
  destruct abc as [[a b] c]. unfold transform_byte, is_byte.
  intros Hx Hy H.
  apply add_mod_cancel, lxor_mod_cancel in H.
  replace (x - mask8 !!! Z.to_nat b) with (x + - mask8 !!! Z.to_nat b) in H by lia.
  replace (y - mask8 !!! Z.to_nat b) with (y + - mask8 !!! Z.to_nat b) in H by lia.
  apply add_mod_cancel in H.
  rewrite !Z.mod_small in H by lia. exact H.
Qed.

(** X3: under one key, two buffers of bytes that decode to the same
    plaintext are the same buffer: the decoder loses no information. *)
Theorem Decrypt_injective (data1 data2 : list Z) (key : EncryptionKey) :
  Forall is_byte data1 ->
  Forall is_byte data2 ->
  Decrypt data1 key = Decrypt data2 key ->
  data1 = data2.
Proof.
  intros Hb1 Hb2. rewrite !Decrypt_key_precomputed.
  generalize (mask_stream 1024 (Seed0 key) (Seed1 key)). intros mask Heq.
  apply Ok_inj in Heq.
  apply list_eq. intros i.
  pose proof (f_equal (fun l => l !! i) Heq) as Hi. cbn beta in Hi.
  rewrite !Decrypt_precomputed_lookup in Hi.
  destruct (data1 !! i) as [x|] eqn:H1, (data2 !! i) as [y|] eqn:H2;
    cbn in Hi; try discriminate; [|reflexivity].
  injection Hi as Hi. f_equal.
  apply (transform_byte_injective mask (index_triple i)).
  - exact (Forall_lookup_1 _ _ _ _ Hb1 H1).
  - exact (Forall_lookup_1 _ _ _ _ Hb2 H2).
  - exact Hi.
Qed.

Lemma Decrypt_injective_witness :
  Forall is_byte [0x10; 0x20; 0x30]
  /\ Decrypt [0x10; 0x20; 0x30] {| Seed0 := 0x78; Seed1 := 0x78 |}
     = Decrypt [0x10; 0x20; 0x30] {| Seed0 := 0x78; Seed1 := 0x78 |}
  /\ [0x10; 0x20; 0x30] = [0x10; 0x20; 0x30].
Proof.
  assert (Hb : Forall is_byte [0x10; 0x20; 0x30])
    by (repeat constructor; unfold is_byte; lia).
  split; [exact Hb|]. split; [reflexivity|].
  exact (Decrypt_injective [0x10; 0x20; 0x30] [0x10; 0x20; 0x30]
           {| Seed0 := 0x78; Seed1 := 0x78 |} Hb Hb eq_refl).
Defined.

(** ** Decrypt: the index schedule *)

Lemma index_triple_period (i : nat) :
  index_triple (i + 4096) = index_triple i.
Proof.
  unfold index_triple.
  replace (7 * Z.of_nat (i + 4096)) with (7 * Z.of_nat i + 7 * 4096)
    by (rewrite Nat2Z.inj_add; change (Z.of_nat 4096) with 4096; lia).
  replace (3 * Z.of_nat (i + 4096)) with (3 * Z.of_nat i + 3 * 4096)
    by (rewrite Nat2Z.inj_add; change (Z.of_nat 4096) with 4096; lia).
  rewrite !Z.mod_add by lia. reflexivity.
Qed.

(** X4: the schedule of mask indices has period 4096: equal ciphertext
    bytes 4096 positions apart decode to equal plaintext bytes. *)
Theorem Decrypt_period (data : list Z) (key : EncryptionKey) (i : nat) (x : Z) :
  data !! i = Some x ->
  data !! (i + 4096)%nat = Some x ->
  exists out y,
    Decrypt data key = Ok out
    /\ out !! i = Some y
    /\ out !! (i + 4096)%nat = Some y.
Proof.
  intros Hi Hj. do 2 eexists.
  split; [apply Decrypt_key_precomputed|].
  rewrite !Decrypt_precomputed_lookup, Hi, Hj, index_triple_period.
  split; reflexivity.
Qed.

Lemma Decrypt_period_witness :
  sample_long_data !! 3%nat = Some 0x55
  /\ sample_long_data !! (3 + 4096)%nat = Some 0x55
  /\ exists out y,
       Decrypt sample_long_data {| Seed0 := 0x78; Seed1 := 0x78 |} = Ok out
       /\ out !! 3%nat = Some y
       /\ out !! (3 + 4096)%nat = Some y.
Proof.
  assert (H1 : sample_long_data !! 3%nat = Some 0x55)
    by (vm_compute; reflexivity).
  assert (H2 : sample_long_data !! (3 + 4096)%nat = Some 0x55)
    by (vm_compute; reflexivity).
  split; [exact H1|]. split; [exact H2|].
  exact (Decrypt_period sample_long_data {| Seed0 := 0x78; Seed1 := 0x78 |}
           3 0x55 H1 H2).
Defined.

Lemma mod_4096_unit (u v i j : Z) :
  (v * u) mod 4096 = 1 ->
  0 <= i < 4096 -> 0 <= j < 4096 ->
  (u * i) mod 4096 = (u * j) mod 4096 -> i = j.
Proof.
  intros Hinv Hi Hj H.
  assert (Hback : forall k, 0 <= k < 4096 -> (v * ((u * k) mod 4096)) mod 4096 = k).
  { intros k Hk. rewrite Z.mul_mod_idemp_r by lia.
    rewrite Z.mul_assoc, <- Z.mul_mod_idemp_l by lia.
    rewrite Hinv, Z.mul_1_l. apply Z.mod_small. exact Hk. }
  rewrite <- (Hback i Hi), <- (Hback j Hj), H. reflexivity.
Qed.

(** X5: within a block of 4096 positions no mask index serves twice as
    [a], nor twice as [c]: if the decoder, before two positions below
    4096, holds rolling indices that reduce to the same [a] or to the same
    [c], the two positions are the same. *)
Theorem Decrypt_indices_distinct (mask8 data : list Z) (i j : nat)
  (st_i st_j : decrypt_state) :
  Z.of_nat (length mask8) = 4096 ->
  (i <= length data)%nat -> (j <= length data)%nat ->
  (i < 4096)%nat -> (j < 4096)%nat ->
  Decrypt_after mask8 data i = Ok st_i ->
  Decrypt_after mask8 data j = Ok st_j ->
  ds_b st_i mod 4096 = ds_b st_j mod 4096
  \/ ds_c st_i mod 4096 = ds_c st_j mod 4096 ->
  i = j.
Proof.
  intros Hmask Hil Hjl Hi Hj Hsi Hsj H.
  rewrite (Decrypt_after_eq mask8 Hmask data i Hil) in Hsi.
  rewrite (Decrypt_after_eq mask8 Hmask data j Hjl) in Hsj.
  apply Ok_inj in Hsi. apply Ok_inj in Hsj. subst st_i st_j.
  cbn [ds_b ds_c] in H.
  destruct (index_after_mod i) as [Hbi Hci].
  destruct (index_after_mod j) as [Hbj Hcj].
  rewrite Hbi, Hbj, Hci, Hcj in H.
  assert (Hi' : 0 <= Z.of_nat i < 4096)
    by (split; [lia | change 4096 with (Z.of_nat 4096); apply Nat2Z.inj_lt, Hi]).
  assert (Hj' : 0 <= Z.of_nat j < 4096)
    by (split; [lia | change 4096 with (Z.of_nat 4096); apply Nat2Z.inj_lt, Hj]).
  apply Nat2Z.inj. destruct H as [H|H].
  - exact (mod_4096_unit 7 3511 _ _ eq_refl Hi' Hj' H).
  - exact (mod_4096_unit 3 2731 _ _ eq_refl Hi' Hj' H).
Qed.

Lemma Decrypt_indices_distinct_witness :
  Z.of_nat (length sample_mask) = 4096
  /\ (2 <= length [0x10; 0x20; 0x30])%nat
  /\ (2 < 4096)%nat
  /\ Decrypt_after sample_mask [0x10; 0x20; 0x30] 2
     = Ok (DecryptState [46; 70; 0x30] 14 6)
  /\ (14 mod 4096 = 14 mod 4096 \/ 6 mod 4096 = 6 mod 4096)
  /\ 2%nat = 2%nat.
Proof.
  assert (Hmask : Z.of_nat (length sample_mask) = 4096)
    by (vm_compute; reflexivity).
  assert (Hlen : (2 <= length [0x10; 0x20; 0x30])%nat) by (cbn; lia).
  assert (Hlt : (2 < 4096)%nat) by (apply Nat.ltb_lt; vm_compute; reflexivity).
  assert (Hst : Decrypt_after sample_mask [0x10; 0x20; 0x30] 2
                = Ok (DecryptState [46; 70; 0x30] 14 6))
    by (vm_compute; reflexivity).
  assert (Heq : ds_b (DecryptState [46; 70; 0x30] 14 6) mod 4096
                = ds_b (DecryptState [46; 70; 0x30] 14 6) mod 4096
                \/ ds_c (DecryptState [46; 70; 0x30] 14 6) mod 4096
                   = ds_c (DecryptState [46; 70; 0x30] 14 6) mod 4096)
    by (left; reflexivity).
  split; [exact Hmask|]. split; [exact Hlen|]. split; [exact Hlt|].
  split; [exact Hst|]. split; [left; reflexivity|].
  exact (Decrypt_indices_distinct sample_mask [0x10; 0x20; 0x30] 2 2 _ _
           Hmask Hlen Hlen Hlt Hlt Hst Hst Heq).
Defined.

(** ** GetEncryptionKey: range, portability, symmetry *)

Lemma key_mix_range (ck : char_kind) (s : Z) (ch : ascii) :
  0 <= key_mix ck s ch < 2 ^ 32.
Proof. rewrite key_mix_spec. apply Z.mod_pos_bound. lia. Qed.

Lemma fold_key_mix_range (ck : char_kind) (name : list ascii) (s : Z) :
  0 <= s < 2 ^ 32 -> 0 <= fold_left (key_mix ck) name s < 2 ^ 32.
Proof.
  revert s. induction name as [|ch name IH]; intros s Hs; cbn [fold_left].
  - exact Hs.
  - apply IH, key_mix_range.
Qed.

(** X6: for a name shorter than 2^31 characters key derivation never
    fails and never reads outside the name, whichever the signedness of
    [char], and both seeds fit 32 bits. *)
Theorem GetEncryptionKey_total_range (ck : char_kind) (fileName : string) :
  Z.of_nat (String.length fileName) < 2 ^ 31 ->
  exists key,
    GetEncryptionKey ck fileName = Ok key
    /\ 0 <= Seed0 key < 2 ^ 32
    /\ 0 <= Seed1 key < 2 ^ 32.
Proof.
  intros Hlen. eexists.
  split; [apply GetEncryptionKey_folds, Hlen|]. cbn [Seed0 Seed1].
  split; apply fold_key_mix_range; lia.
Qed.

Lemma GetEncryptionKey_total_range_witness :
  Z.of_nat (String.length "PARK.SEA") < 2 ^ 31
  /\ exists key,
       GetEncryptionKey UnsignedChar "PARK.SEA" = Ok key
       /\ 0 <= Seed0 key < 2 ^ 32
       /\ 0 <= Seed1 key < 2 ^ 32.
Proof.
  assert (Hlen : Z.of_nat (String.length "PARK.SEA") < 2 ^ 31)
    by (vm_compute; reflexivity).
  split; [exact Hlen|].
  exact (GetEncryptionKey_total_range UnsignedChar "PARK.SEA" Hlen).
Defined.

Lemma key_mix_seven_bit (s : Z) (ch : ascii) :
  seven_bit ch -> key_mix SignedChar s ch = key_mix UnsignedChar s ch.
Proof.
  intros H7. unfold key_mix.
  rewrite (key_operand_seven_bit SignedChar ch H7).
  rewrite (key_operand_seven_bit UnsignedChar ch H7). reflexivity.
Qed.

Lemma fold_key_mix_seven_bit (name : list ascii) (s : Z) :
  Forall seven_bit name ->
  fold_left (key_mix SignedChar) name s = fold_left (key_mix UnsignedChar) name s.
Proof.
  intros Hname. revert s.
  induction Hname as [|ch name Hch _ IH]; intros s; cbn [fold_left].
  - reflexivity.
  - rewrite key_mix_seven_bit by exact Hch. apply IH.
Qed.

(** X7: for a file name made of characters below 0x80 the key is the
    same whether [char] is signed or unsigned on the target. *)
Theorem GetEncryptionKey_seven_bit_portable (fileName : string) :
  Forall seven_bit (list_ascii_of_string fileName) ->
  GetEncryptionKey SignedChar fileName = GetEncryptionKey UnsignedChar fileName.
Proof.
  intros Hname. unfold GetEncryptionKey.
  set (name := list_ascii_of_string fileName) in *.
  destruct (to_int32 (Z.of_nat (length name)) - 1 <? - 2 ^ 31); [reflexivity|].
  pose proof (to_int32_le (Z.of_nat (length name)) ltac:(lia)) as Hle.
  rewrite !seed0_loop_fold by lia. cbn [bind].
  rewrite !(seed1_loop_fold _ name _ 0) by lia. cbn [bind].
  rewrite !fold_key_mix_seven_bit; [reflexivity| |].
  - rewrite drop_0. apply Forall_take, Hname.
  - apply Forall_rev, Forall_take, Hname.
Qed.

Lemma GetEncryptionKey_seven_bit_portable_witness :
  Forall seven_bit (list_ascii_of_string "PARK.SEA")
  /\ GetEncryptionKey SignedChar "PARK.SEA"
     = GetEncryptionKey UnsignedChar "PARK.SEA".
Proof.
  assert (H : Forall seven_bit (list_ascii_of_string "PARK.SEA"))
    by (repeat constructor; vm_compute; reflexivity).
  split; [exact H|].
  exact (GetEncryptionKey_seven_bit_portable "PARK.SEA" H).
Defined.

(** X16: where the code and the byte-wise formula agree: for a file
    name shorter than 2^31 characters, on a target where [char] is
    unsigned or when every character of the name is below 0x80, seed0 is
    [s = (s + (s << 5)) XOR byte] modulo 2^32 accumulated from 0 over the
    unsigned bytes of the name from last to first, and seed1 the same
    from first to last. *)
Theorem GetEncryptionKey_plain_bytes (ck : char_kind) (fileName : string) :
  Z.of_nat (String.length fileName) < 2 ^ 31 ->
  ck = UnsignedChar \/ Forall seven_bit (list_ascii_of_string fileName) ->
  GetEncryptionKey ck fileName
  = Ok {| Seed0 := spec_accumulate
                     (rev (map char_code (list_ascii_of_string fileName)));
          Seed1 := spec_accumulate
                     (map char_code (list_ascii_of_string fileName)) |}.
Proof.
  intros Hlen Hplain.
  rewrite (proj1 (GetEncryptionKey_accumulates ck fileName Hlen)).
  assert (Hops : map (key_operand ck) (list_ascii_of_string fileName)
                 = map char_code (list_ascii_of_string fileName)).
  { destruct Hplain as [-> | Hseven].
    - apply map_ext. exact key_operand_unsigned.
    - induction Hseven as [|ch name Hch _ IH]; [reflexivity|].
      cbn [map]. rewrite IH, (key_operand_seven_bit ck ch Hch). reflexivity. }
  rewrite Hops. reflexivity.
Qed.

Lemma GetEncryptionKey_plain_bytes_witness :
  Z.of_nat (String.length "PARK.SEA") < 2 ^ 31
  /\ (SignedChar = UnsignedChar
      \/ Forall seven_bit (list_ascii_of_string "PARK.SEA"))
  /\ GetEncryptionKey SignedChar "PARK.SEA"
     = Ok {| Seed0 := spec_accumulate
                        (rev [0x50; 0x41; 0x52; 0x4B; 0x2E; 0x53; 0x45; 0x41]);
             Seed1 := spec_accumulate
                        [0x50; 0x41; 0x52; 0x4B; 0x2E; 0x53; 0x45; 0x41] |}.
Proof.
  assert (Hlen : Z.of_nat (String.length "PARK.SEA") < 2 ^ 31)
    by (vm_compute; reflexivity).
  assert (Hplain : SignedChar = UnsignedChar
                   \/ Forall seven_bit (list_ascii_of_string "PARK.SEA"))
    by (right; repeat constructor; vm_compute; reflexivity).
  split; [exact Hlen|]. split; [exact Hplain|].
  exact (GetEncryptionKey_plain_bytes SignedChar "PARK.SEA" Hlen Hplain).
Defined.

(** X8: reading the name backwards swaps the two seeds: for a name
    shorter than 2^31 characters, Seed0 of the reversed name is Seed1 of
    the name and Seed1 of the reversed name is Seed0 of the name. *)
Theorem GetEncryptionKey_reverse (ck : char_kind) (fileName : string)
  (key : EncryptionKey) :
  Z.of_nat (String.length fileName) < 2 ^ 31 ->
  GetEncryptionKey ck fileName = Ok key ->
  GetEncryptionKey ck (reverse_name fileName)
  = Ok {| Seed0 := Seed1 key; Seed1 := Seed0 key |}.
Proof.
  intros Hlen Hkey.
  rewrite GetEncryptionKey_folds in Hkey by exact Hlen.
  apply Ok_inj in Hkey. subst key. cbn [Seed0 Seed1].
  rewrite GetEncryptionKey_folds.
  - unfold reverse_name.
    rewrite list_ascii_of_string_of_list_ascii, rev_involutive. reflexivity.
  - unfold reverse_name.
    rewrite <- length_list_ascii_of_string,
      list_ascii_of_string_of_list_ascii, length_rev,
      length_list_ascii_of_string.
    exact Hlen.
Qed.

Lemma GetEncryptionKey_reverse_witness :
  Z.of_nat (String.length "PARK.SEA") < 2 ^ 31
  /\ GetEncryptionKey SignedChar "PARK.SEA"
     = Ok {| Seed0 := 1765408241; Seed1 := 1401124561 |}
  /\ GetEncryptionKey SignedChar (reverse_name "PARK.SEA")
     = Ok {| Seed0 := 1401124561; Seed1 := 1765408241 |}.
Proof.
  assert (Hlen : Z.of_nat (String.length "PARK.SEA") < 2 ^ 31)
    by (vm_compute; reflexivity).
  assert (Hkey : GetEncryptionKey SignedChar "PARK.SEA"
                 = Ok {| Seed0 := 1765408241; Seed1 := 1401124561 |})
    by (vm_compute; reflexivity).
  split; [exact Hlen|]. split; [exact Hkey|].
  exact (GetEncryptionKey_reverse SignedChar "PARK.SEA" _ Hlen Hkey).
Defined.

(** ** CreateMask: the bytes of the mask *)

Lemma land_255_byte (v : Z) : is_byte (Z.land v 0xFF).
Proof. rewrite land_255. apply Z.mod_pos_bound. lia. Qed.

Lemma mask_stream_bytes (n : nat) (s0 s1 : Z) :
  Forall is_byte (mask_stream n s0 s1).
Proof.
  revert s0 s1. induction n as [|n IH]; intros s0 s1; cbn [mask_stream].
  - constructor.
  - apply Forall_app. split; [|apply IH].
    unfold round_bytes. repeat constructor; apply land_255_byte.
Qed.

(** X9: every byte of the mask is below 256, for every key, also one
    whose seeds are not 32-bit values. *)
Theorem CreateMask_bytes (key : EncryptionKey) :
  exists mask, CreateMask key = Ok mask /\ Forall is_byte mask.
Proof.
  eexists. split; [apply CreateMask_stream | apply mask_stream_bytes].
Qed.

(** X12: the first four bytes of the mask are fixed by Seed0 alone: two
    keys with the same Seed0 give masks that agree on them, whatever
    their Seed1. *)
Theorem CreateMask_first_round (key key' : EncryptionKey) :
  Seed0 key' = Seed0 key ->
  exists mask mask',
    CreateMask key = Ok mask
    /\ CreateMask key' = Ok mask'
    /\ take 4 mask' = take 4 mask.
Proof.
  intros Hseed. do 2 eexists.
  split; [apply CreateMask_stream|]. split; [apply CreateMask_stream|].
  rewrite Hseed.
  change 1024%nat with (S 1023). cbn [mask_stream round_bytes app take].
  reflexivity.
Qed.

Lemma CreateMask_first_round_witness :
  Seed0 {| Seed0 := 0x78; Seed1 := 0 |} = Seed0 {| Seed0 := 0x78; Seed1 := 0x78 |}
  /\ exists mask mask',
       CreateMask {| Seed0 := 0x78; Seed1 := 0x78 |} = Ok mask
       /\ CreateMask {| Seed0 := 0x78; Seed1 := 0 |} = Ok mask'
       /\ take 4 mask' = take 4 mask.
Proof.
  assert (H : Seed0 {| Seed0 := 0x78; Seed1 := 0 |}
              = Seed0 {| Seed0 := 0x78; Seed1 := 0x78 |}) by reflexivity.
  split; [exact H|].
  exact (CreateMask_first_round {| Seed0 := 0x78; Seed1 := 0x78 |}
           {| Seed0 := 0x78; Seed1 := 0 |} H).
Defined.

(** ** DecryptSea: the payload and the checksum *)

(** X10: for a file name shorter than 2^31 characters, a file of at
    least four bytes (and shorter than 2^64) always decodes: the result is
    the payload in front of the last four bytes, decoded under the key of
    the file name, four bytes shorter than the file. *)
Theorem DecryptSea_decodes_payload (ck : char_kind) (fileName : string)
  (raw : list Z) :
  Z.of_nat (String.length fileName) < 2 ^ 31 ->
  (4 <= length raw)%nat ->
  Z.of_nat (length raw) < 2 ^ 64 ->
  exists key out,
    GetEncryptionKey ck fileName = Ok key
    /\ Decrypt (take (length raw - 4) raw) key = Ok out
    /\ DecryptSea ck fileName raw = Ok out
    /\ length out = (length raw - 4)%nat.
Proof.
  intros Hname Hlen Hsize.
  pose proof (GetEncryptionKey_folds ck fileName Hname) as Hkey.
  do 2 eexists.
  split; [exact Hkey|].
  split; [apply Decrypt_key_precomputed|].
  split; [rewrite (DecryptSea_payload ck fileName raw _ Hkey Hlen Hsize);
          apply Decrypt_key_precomputed|].
  rewrite length_Decrypt_precomputed, length_take_le by lia. reflexivity.
Qed.

Lemma DecryptSea_decodes_payload_witness :
  Z.of_nat (String.length "PARK.SEA") < 2 ^ 31
  /\ (4 <= length (sample_payload ++ sample_checksum))%nat
  /\ Z.of_nat (length (sample_payload ++ sample_checksum)) < 2 ^ 64
  /\ exists key out,
       GetEncryptionKey SignedChar "PARK.SEA" = Ok key
       /\ Decrypt (take (length (sample_payload ++ sample_checksum) - 4)
                     (sample_payload ++ sample_checksum)) key = Ok out
       /\ DecryptSea SignedChar "PARK.SEA" (sample_payload ++ sample_checksum)
          = Ok out
       /\ length out = (length (sample_payload ++ sample_checksum) - 4)%nat.
Proof.
  assert (H0 : Z.of_nat (String.length "PARK.SEA") < 2 ^ 31)
    by (vm_compute; reflexivity).
  assert (H1 : (4 <= length (sample_payload ++ sample_checksum))%nat)
    by (cbn; lia).
  assert (H2 : Z.of_nat (length (sample_payload ++ sample_checksum)) < 2 ^ 64)
    by (vm_compute; reflexivity).
  split; [exact H0|]. split; [exact H1|]. split; [exact H2|].
  exact (DecryptSea_decodes_payload SignedChar "PARK.SEA"
           (sample_payload ++ sample_checksum) H0 H1 H2).
Defined.

(** X11: the stored checksum is read and then ignored: two files with
    the same name and the same payload decode alike whatever their last
    four bytes are. *)
Theorem DecryptSea_ignores_checksum (ck : char_kind) (fileName : string)
  (payload checksum1 checksum2 : list Z) :
  length checksum1 = 4%nat ->
  length checksum2 = 4%nat ->
  Z.of_nat (length payload) + 4 < 2 ^ 64 ->
  DecryptSea ck fileName (payload ++ checksum1)
  = DecryptSea ck fileName (payload ++ checksum2).
Proof.
  intros Hc1 Hc2 Hsize.
  destruct (GetEncryptionKey_outcome ck fileName) as [Hkey | [key Hkey]].
  { unfold DecryptSea. rewrite Hkey. cbn [bind]. reflexivity. }
  rewrite (DecryptSea_payload ck fileName (payload ++ checksum1) key Hkey)
    by (unfold SIZE_BITS; rewrite length_app; lia).
  rewrite (DecryptSea_payload ck fileName (payload ++ checksum2) key Hkey)
    by (unfold SIZE_BITS; rewrite length_app; lia).
  rewrite !length_app, Hc1, Hc2.
  replace (length payload + 4 - 4)%nat with (length payload) by lia.
  rewrite (take_app_length payload checksum1).
  rewrite (take_app_length payload checksum2). reflexivity.
Qed.

Lemma DecryptSea_ignores_checksum_witness :
  length sample_checksum = 4%nat
  /\ length [0; 0; 0; 0] = 4%nat
  /\ Z.of_nat (length sample_payload) + 4 < 2 ^ 64
  /\ DecryptSea SignedChar "PARK.SEA" (sample_payload ++ sample_checksum)
     = DecryptSea SignedChar "PARK.SEA" (sample_payload ++ [0; 0; 0; 0]).
Proof.
  assert (H1 : length sample_checksum = 4%nat) by reflexivity.
  assert (H2 : length [0; 0; 0; 0] = 4%nat) by reflexivity.
  assert (H3 : Z.of_nat (length sample_payload) + 4 < 2 ^ 64)
    by (vm_compute; reflexivity).
  split; [exact H1|]. split; [exact H2|]. split; [exact H3|].
  exact (DecryptSea_ignores_checksum SignedChar "PARK.SEA" sample_payload
           sample_checksum [0; 0; 0; 0] H1 H2 H3).
Defined.

(** * The locale's date format (platform/Windows.cpp) *)

Lemma scan_run_app (in_set : Z -> bool) (run behind : list Z) :
  Forall (fun c => in_set c = true) run ->
  match behind with [] => True | c :: _ => in_set c = false end ->
  scan_run in_set (run ++ behind) = (run, behind).
Proof.
  intros Hrun Hstop. induction Hrun as [|c run Hc _ IH]; cbn [app scan_run].
  - destruct behind as [|c behind]; [reflexivity|].
    cbn [scan_run]. now rewrite Hstop.
  - rewrite Hc, IH. reflexivity.
Qed.

Lemma scan_run_cons (in_set : Z -> bool) (c : Z) (rest : list Z) :
  in_set c = true ->
  exists run behind, scan_run in_set (c :: rest) = (c :: run, behind).
Proof.
  intros Hc. cbn [scan_run]. rewrite Hc.
  destruct (scan_run in_set rest) as [run behind]. eauto.
Qed.

Lemma is_dyM_cases (c : Z) :
  is_dyM c = true -> c = wchar_d \/ c = wchar_y \/ c = wchar_M.
Proof.
  unfold is_dyM. intros H.
  apply orb_true_iff in H as [H|H]; [apply orb_true_iff in H as [H|H]|];
    apply Z.eqb_eq in H; auto.
Qed.

(** X13: a pattern that fits the buffer and has the shape letters,
    separators, letter (a run of [d], [y], [M], then one character or
    more outside that set, then again one of [d], [y], [M]) is classified
    by its first letter, and under [y] by the first letter of its second
    group: [d] gives day-month-year, [M] month-day-year, [y] followed by
    [d] year-day-month, [y] followed by anything else year-month-day.
    What comes after does not matter. *)
Theorem date_format_of_pattern (c1 c2 : Z) (letters separators rest : list Z) :
  is_dyM c1 = true ->
  Forall (fun c => is_dyM c = true) letters ->
  separators <> [] ->
  Forall (fun c => is_dyM c = false) separators ->
  is_dyM c2 = true ->
  (length (c1 :: letters ++ separators ++ c2 :: rest) <= 19)%nat ->
  platform_get_locale_date_format
    (Some (c1 :: letters ++ separators ++ c2 :: rest))
  = if c1 =? wchar_d then DATE_FORMAT_DAY_MONTH_YEAR
    else if c1 =? wchar_M then DATE_FORMAT_MONTH_DAY_YEAR
    else if c2 =? wchar_d then DATE_FORMAT_YEAR_DAY_MONTH
    else DATE_FORMAT_YEAR_MONTH_DAY.
Proof.
  intros Hc1 Hletters Hsep Hseps Hc2 Hlen.
  unfold platform_get_locale_date_format, GetLocaleInfoEx.
  replace (Z.of_nat (length (c1 :: letters ++ separators ++ c2 :: rest)) + 1 <=? 20)
    with true by (symmetry; apply Z.leb_le; lia).
  unfold swscanf_s_date.
  destruct separators as [|s1 separators]; [congruence|].
  pose proof (Forall_inv Hseps) as Hs1. cbn beta in Hs1.
  change (c1 :: letters ++ (s1 :: separators) ++ c2 :: rest)
    with ((c1 :: letters) ++ (s1 :: separators) ++ c2 :: rest).
  rewrite (scan_run_app is_dyM (c1 :: letters) ((s1 :: separators) ++ c2 :: rest));
    [|constructor; assumption | exact Hs1].
  rewrite (scan_run_app (fun c => negb (is_dyM c)) (s1 :: separators) (c2 :: rest));
    [|eapply Forall_impl; [exact Hseps | intros c Hc; cbn beta in *; now rewrite Hc]
     |now rewrite Hc2].
  destruct (scan_run_cons is_dyM c2 rest Hc2) as [run [behind ->]].
  cbn [Z.eqb negb wcsncmp1_eq].
  destruct (is_dyM_cases c1 Hc1) as [-> | [-> | ->]]; reflexivity.
Qed.

Lemma date_format_of_pattern_witness :
  is_dyM wchar_y = true
  /\ Forall (fun c => is_dyM c = true) (wide "yyy")
  /\ wide "-" <> []
  /\ Forall (fun c => is_dyM c = false) (wide "-")
  /\ is_dyM wchar_M = true
  /\ (length (wchar_y :: wide "yyy" ++ wide "-" ++ wchar_M :: wide "M-dd") <= 19)%nat
  /\ platform_get_locale_date_format (Some (wide "yyyy-MM-dd"))
     = DATE_FORMAT_YEAR_MONTH_DAY.
Proof.
  assert (H1 : is_dyM wchar_y = true) by reflexivity.
  assert (H2 : Forall (fun c => is_dyM c = true) (wide "yyy"))
    by (repeat constructor).
  assert (H3 : wide "-" <> []) by (vm_compute; discriminate).
  assert (H4 : Forall (fun c => is_dyM c = false) (wide "-"))
    by (repeat constructor).
  assert (H5 : is_dyM wchar_M = true) by reflexivity.
  assert (H6 : (length (wchar_y :: wide "yyy" ++ wide "-" ++ wchar_M :: wide "M-dd")
                <= 19)%nat) by (vm_compute; lia).
  split; [exact H1|]. split; [exact H2|]. split; [exact H3|].
  split; [exact H4|]. split; [exact H5|]. split; [exact H6|].
  exact (date_format_of_pattern wchar_y wchar_M (wide "yyy") (wide "-")
           (wide "M-dd") H1 H2 H3 H4 H5 H6).
Defined.

(** X14: a pattern written without separators, only the letters [d],
    [y] and [M] (such as [yyyyMMdd]), is reported as day-month-year
    whatever its order: the scan needs a separator behind the first
    group. *)
Theorem date_format_without_separator (pattern : list Z) :
  Forall (fun c => is_dyM c = true) pattern ->
  platform_get_locale_date_format (Some pattern) = DATE_FORMAT_DAY_MONTH_YEAR.
Proof.
  intros Hletters.
  unfold platform_get_locale_date_format, GetLocaleInfoEx.
  destruct (Z.of_nat (length pattern) + 1 <=? 20); [|reflexivity].
  unfold swscanf_s_date.
  rewrite <- (app_nil_r pattern) at 1.
  rewrite (scan_run_app is_dyM pattern [] Hletters I).
  destruct pattern as [|c pattern]; reflexivity.
Qed.

Lemma date_format_without_separator_witness :
  Forall (fun c => is_dyM c = true) (wide "yyyyMMdd")
  /\ platform_get_locale_date_format (Some (wide "yyyyMMdd"))
     = DATE_FORMAT_DAY_MONTH_YEAR.
Proof.
  assert (H : Forall (fun c => is_dyM c = true) (wide "yyyyMMdd"))
    by (repeat constructor).
  split; [exact H|].
  exact (date_format_without_separator (wide "yyyyMMdd") H).
Defined.

(** X15: day-month-year is the answer unless the system gives a pattern
    of at most 19 characters that begins with [M] or [y]: a failed call,
    a longer pattern, an empty one, one that begins with [d] or with any
    other character (a quoted literal, a space) all give day-month-year. *)
Theorem date_format_not_default (pattern : option (list Z)) :
  platform_get_locale_date_format pattern <> DATE_FORMAT_DAY_MONTH_YEAR ->
  exists c rest,
    pattern = Some (c :: rest)
    /\ (c = wchar_M \/ c = wchar_y)
    /\ (length (c :: rest) <= 19)%nat.
Proof.
  unfold platform_get_locale_date_format, GetLocaleInfoEx.
  destruct pattern as [text|]; [|congruence].
  destruct (Z.leb_spec (Z.of_nat (length text) + 1) 20) as [Hfit|_]; [|congruence].
  destruct text as [|c rest]; [cbn; congruence|].
  intros Hfmt. exists c, rest. split; [reflexivity|]. split; [|lia].
  unfold swscanf_s_date in Hfmt. cbn [scan_run] in Hfmt.
  destruct (is_dyM c) eqn:Hc; [|cbn in Hfmt; congruence].
  destruct (is_dyM_cases c Hc) as [-> | [-> | ->]]; [|auto|auto].
  exfalso. apply Hfmt.
  destruct (scan_run is_dyM rest) as [run behind1].
  destruct (scan_run (fun c => negb (is_dyM c)) behind1) as [[|s seps] behind2];
    [reflexivity|].
  destruct (scan_run is_dyM behind2) as [[|x second] behind3]; reflexivity.
Qed.

Lemma date_format_not_default_witness :
  platform_get_locale_date_format (Some (wide "M/d/yyyy"))
  <> DATE_FORMAT_DAY_MONTH_YEAR
  /\ exists c rest,
       Some (wide "M/d/yyyy") = Some (c :: rest)
       /\ (c = wchar_M \/ c = wchar_y)
       /\ (length (c :: rest) <= 19)%nat.
Proof.
  assert (H : platform_get_locale_date_format (Some (wide "M/d/yyyy"))
              <> DATE_FORMAT_DAY_MONTH_YEAR) by (vm_compute; discriminate).
  split; [exact H|].
  exact (date_format_not_default (Some (wide "M/d/yyyy")) H).
Defined.
